(** * lensisku-go: the concurrency core

  A shallow embedding of the two components of the repository that
  coordinate goroutines:

  - [Broadcaster] (package jbovlaste, broadcaster.go): the registry of SSE
    clients, each with an event channel, a cancel channel and a flag;
  - [Pipeline] (package background): the embedding calculator service, an
    orchestrator goroutine with three processor workers, one updater and
    one goroutine that closes the results channel.

  Go channels are modelled by [Chan.chan]: a FIFO buffer, a capacity and a
  closed flag, with the run-time's rules for send, receive and close
  (a send on a closed channel panics, also inside a [select]). *)

From stdpp Require Import gmap strings list.
From Stdlib Require Import Lia.

Local Open Scope string_scope.
Local Open Scope nat_scope.
Local Open Scope list_scope.

(** ** Buffered channels *)

Module Chan.

Record chan (A : Type) : Type := Make {
  buf : list A;       (* queued values, oldest first *)
  cap : nat;          (* capacity given to make *)
  closed : bool
}.
Arguments Make {A} _ _ _.
Arguments buf {A} _.
Arguments cap {A} _.
Arguments closed {A} _.

(** [make(chan A, n)] *)
Definition make {A} (n : nat) : chan A := Make [] n false.

(** Result of [select { case c <- x: ... default: ... }]. *)
Inductive try_result (A : Type) : Type :=
| Sent (c : chan A)      (* the send case ran *)
| WouldBlock             (* the default case ran *)
| SendOnClosed.          (* run-time panic: send on closed channel *)
Arguments Sent {A} _.
Arguments WouldBlock {A}.
Arguments SendOnClosed {A}.

Definition push {A} (c : chan A) (x : A) : chan A :=
  Make (buf c ++ [x]) (cap c) (closed c).

Definition full {A} (c : chan A) : bool := cap c <=? length (buf c).

Definition try_send {A} (c : chan A) (x : A) : try_result A :=
  if closed c then SendOnClosed
  else if full c then WouldBlock
  else Sent (push c x).

(** [close(c)]; [None] is the panic of closing a closed channel. *)
Definition close {A} (c : chan A) : option (chan A) :=
  if closed c then None else Some (Make (buf c) (cap c) true).

(** Taking the oldest value, when there is one. *)
Definition pop {A} (c : chan A) : option (A * chan A) :=
  match buf c with
  | [] => None
  | x :: r => Some (x, Make r (cap c) (closed c))
  end.

(** A [range] loop over the channel ends when it is closed and empty. *)
Definition drained {A} (c : chan A) : bool :=
  closed c && match buf c with [] => true | _ => false end.

End Chan.

(** ** The client registry (broadcaster.go) *)

Module Broadcaster.
Import Chan.

(** [SSEEvent] has the single field [Data]. *)
Record SSEEvent : Type := { Data : string }.

(** A Go error value; [None] is [nil]. *)
Definition error := option string.

(** Addresses of [ClientInfo] objects. *)
Definition loc := nat.

(** [ClientInfo]. The two channels are created with the object and the
    fields are never reassigned, so the state of each channel is kept in
    the object that owns it. The mutex [mu] is not state: the sections it
    protects are the atomic functions below. *)
Record ClientInfo : Type := {
  sseChannel : chan SSEEvent;
  cancelChannel : chan bool;
  isCancelled : bool
}.

(** [Broadcaster]: the map [clients] from client ID to a pointer, together
    with the part of the heap the pointers refer to. Removing a client
    deletes the map entry; the object stays in the heap, where calls that
    looked it up earlier and the consumers of its channels still see it. *)
Record Broadcaster : Type := {
  clients : gmap string loc;
  heap : gmap loc ClientInfo;
  next : loc                              (* allocation pointer *)
}.

Definition NewBroadcaster : Broadcaster :=
  {| clients := ∅; heap := ∅; next := 0 |}.

(** What a call does: it returns a result, or the calling goroutine
    panics; either way it leaves a state behind (a panic unwinds through
    the deferred unlocks and may be recovered by the caller). *)
Inductive outcome (R : Type) : Type :=
| Ret (b : Broadcaster) (r : R)
| Panic (b : Broadcaster).
Arguments Ret {R} _ _.
Arguments Panic {R} _.

Definition set_heap (b : Broadcaster) (l : loc) (ci : ClientInfo) : Broadcaster :=
  {| clients := clients b; heap := <[l := ci]> (heap b); next := next b |}.

(** [NewClient]; [clientID] is the string [uuid.New().String()] gave. The
    result is the ID and the object whose two channels the caller reads. *)
Definition NewClient (clientID : string) (b : Broadcaster) : Broadcaster * (string * loc) :=
  let clientInfo :=
    {| sseChannel := make 32; cancelChannel := make 1; isCancelled := false |} in
  let l := next b in
  ({| clients := <[clientID := l]> (clients b);
      heap := <[l := clientInfo]> (heap b);
      next := S l |},
   (clientID, l)).

Definition err_not_found (clientID : string) : string :=
  "client ID " +:+ clientID +:+ " not found".
Definition err_send_failed (clientID : string) : string :=
  "failed to send SSE to client " +:+ clientID +:+ ": channel full or closed".
Definition err_not_found_cancel (clientID : string) : string :=
  "client ID " +:+ clientID +:+ " not found for cancellation".
Definition err_already_cancelled (clientID : string) : string :=
  "import for client ID " +:+ clientID +:+ " already cancelled".
Definition err_cancel_failed (clientID : string) : string :=
  "failed to send cancellation signal to client " +:+ clientID +:+ ": channel full or closed".

(** The [select] of [Broadcast], on the object found earlier. *)
Definition Broadcast_send (clientID : string) (l : loc) (event : SSEEvent)
    (b : Broadcaster) : outcome error :=
  match heap b !! l with
  | None => Panic b
  | Some ci =>
      match try_send (sseChannel ci) event with
      | Sent c =>
          Ret (set_heap b l {| sseChannel := c; cancelChannel := cancelChannel ci;
                               isCancelled := isCancelled ci |}) None
      | WouldBlock => Ret b (Some (err_send_failed clientID))
      | SendOnClosed => Panic b
      end
  end.

(** [Broadcast]: lookup under the read lock, the flag under the client's
    lock, then the non-blocking send. *)
Definition Broadcast (clientID : string) (event : SSEEvent) (b : Broadcaster)
    : outcome error :=
  match clients b !! clientID with
  | None => Ret b (Some (err_not_found clientID))
  | Some l =>
      match heap b !! l with
      | None => Panic b
      | Some ci =>
          if isCancelled ci then Ret b None
          else Broadcast_send clientID l event b
      end
  end.

(** The section of [CancelImport] that runs under the client's lock. *)
Definition CancelImport_locked (clientID : string) (l : loc) (b : Broadcaster)
    : outcome error :=
  match heap b !! l with
  | None => Panic b
  | Some ci =>
      if isCancelled ci then Ret b (Some (err_already_cancelled clientID))
      else
        let marked := {| sseChannel := sseChannel ci;
                         cancelChannel := cancelChannel ci;
                         isCancelled := true |} in
        match try_send (cancelChannel ci) true with
        | Sent c =>
            Ret (set_heap b l {| sseChannel := sseChannel ci; cancelChannel := c;
                                 isCancelled := true |}) None
        | WouldBlock => Ret (set_heap b l marked) (Some (err_cancel_failed clientID))
        | SendOnClosed => Panic (set_heap b l marked)
        end
  end.

Definition CancelImport (clientID : string) (b : Broadcaster) : outcome error :=
  match clients b !! clientID with
  | None => Ret b (Some (err_not_found_cancel clientID))
  | Some l => CancelImport_locked clientID l b
  end.

(** [RemoveClient], all of it under the write lock. *)
Definition RemoveClient (clientID : string) (b : Broadcaster) : outcome unit :=
  match clients b !! clientID with
  | None => Ret b tt
  | Some l =>
      match heap b !! l with
      | None => Panic b
      | Some ci =>
          match close (sseChannel ci) with
          | None => Panic b
          | Some s =>
              match close (cancelChannel ci) with
              | None =>
                  Panic (set_heap b l {| sseChannel := s;
                                         cancelChannel := cancelChannel ci;
                                         isCancelled := isCancelled ci |})
              | Some c =>
                  Ret {| clients := delete clientID (clients b);
                         heap := <[l := {| sseChannel := s; cancelChannel := c;
                                           isCancelled := isCancelled ci |}]> (heap b);
                         next := next b |} tt
              end
          end
      end
  end.

(** [GetClientSSEChannel]: the object whose event channel is returned, or
    [None] for nil. *)
Definition GetClientSSEChannel (clientID : string) (b : Broadcaster) : option loc :=
  clients b !! clientID.

(** The consumers of the two channels NewClient handed out. *)
Definition recv_sse (l : loc) (b : Broadcaster) : option (SSEEvent * Broadcaster) :=
  ci ← heap b !! l;
  '(x, c) ← pop (sseChannel ci);
  Some (x, set_heap b l {| sseChannel := c; cancelChannel := cancelChannel ci;
                           isCancelled := isCancelled ci |}).

Definition recv_cancel (l : loc) (b : Broadcaster) : option (bool * Broadcaster) :=
  ci ← heap b !! l;
  '(x, c) ← pop (cancelChannel ci);
  Some (x, set_heap b l {| sseChannel := sseChannel ci; cancelChannel := c;
                           isCancelled := isCancelled ci |}).

(** *** Executions

    What goroutines can do to a broadcaster, one atomic section at a time.
    Besides whole calls there are the second halves of [Broadcast] and
    [CancelImport]: a call that found its object and (for Broadcast) saw
    the flag clear may be delayed for any time before it goes on, so these
    halves can run on any object of the heap whatever happened meanwhile. *)
Inductive action : Type :=
| ANewClient (clientID : string)
| ABroadcast (clientID : string) (event : SSEEvent)
| ACancelImport (clientID : string)
| ARemoveClient (clientID : string)
| ABroadcastSend (clientID : string) (l : loc) (event : SSEEvent)
| ACancelLocked (clientID : string) (l : loc)
| ARecvSSE (l : loc)
| ARecvCancel (l : loc).

Definition state_of {R} (o : outcome R) : Broadcaster :=
  match o with Ret b _ => b | Panic b => b end.

(** The value a call returned, if it returned. *)
Definition returned {R} (o : outcome R) : option R :=
  match o with Ret _ r => Some r | Panic _ => None end.

(** One action; [None] when it cannot run (a receive with nothing queued). *)
Definition exec (a : action) (b : Broadcaster) : option Broadcaster :=
  match a with
  | ANewClient id => Some (fst (NewClient id b))
  | ABroadcast id ev => Some (state_of (Broadcast id ev b))
  | ACancelImport id => Some (state_of (CancelImport id b))
  | ARemoveClient id => Some (state_of (RemoveClient id b))
  | ABroadcastSend id l ev => Some (state_of (Broadcast_send id l ev b))
  | ACancelLocked id l => Some (state_of (CancelImport_locked id l b))
  | ARecvSSE l => snd <$> recv_sse l b
  | ARecvCancel l => snd <$> recv_cancel l b
  end.

Fixpoint run (acts : list action) (b : Broadcaster) : option Broadcaster :=
  match acts with
  | [] => Some b
  | a :: rest => b' ← exec a b; run rest b'
  end.

Inductive reachable : Broadcaster -> Prop :=
| reach_new : reachable NewBroadcaster
| reach_step a b b' : reachable b -> exec a b = Some b' -> reachable b'.

(** The flag of the object at [l]. *)
Definition cancelled_at (b : Broadcaster) (l : loc) : option bool :=
  isCancelled <$> heap b !! l.

(** *** Invariants and sample states *)

Record obj_ok (ci : ClientInfo) : Prop := {
  ok_sse_cap : cap (sseChannel ci) = 32;
  ok_cancel_cap : cap (cancelChannel ci) = 1;
  ok_sse_len : length (buf (sseChannel ci)) ≤ 32;
  ok_cancel_len : length (buf (cancelChannel ci)) ≤ 1;
  ok_unfired : isCancelled ci = false → buf (cancelChannel ci) = []
}.

Definition is_open (ci : ClientInfo) : Prop :=
  closed (sseChannel ci) = false ∧ closed (cancelChannel ci) = false.

Record Inv (b : Broadcaster) : Prop := {
  inv_bound : ∀ l, is_Some (heap b !! l) → l < next b;
  inv_reg : ∀ id l, clients b !! id = Some l → ∃ ci, heap b !! l = Some ci ∧ is_open ci;
  inv_inj : ∀ id id' l, clients b !! id = Some l → clients b !! id' = Some l → id = id';
  inv_obj : ∀ l ci, heap b !! l = Some ci → obj_ok ci
}.

Definition hello : SSEEvent := {| Data := "hello" |}.

(** One registered client, nothing sent yet. *)
Definition one_client : Broadcaster := (NewClient "a" NewBroadcaster).1.

(** One registered client that has been cancelled. *)
Definition one_cancelled : Broadcaster := state_of (CancelImport "a" one_client).

(** One registered client whose event channel holds 32 events. *)
Definition saturated : Broadcaster :=
  Eval vm_compute in default NewBroadcaster
    (run (ANewClient "a" :: replicate 32 (ABroadcast "a" hello)) NewBroadcaster).

(** *** The rest of the registry *)

(** [NewSSEEvent] (sse_event.go) *)
Definition NewSSEEvent (data : string) : SSEEvent := {| Data := data |}.



(** A consumer of the event channel of the object at [l] receiving up to
    [n] events, as long as some are queued. *)
Fixpoint drain_sse (n : nat) (l : loc) (b : Broadcaster) : list SSEEvent * Broadcaster :=
  match n with
  | O => ([], b)
  | S m =>
      match recv_sse l b with
      | None => ([], b)
      | Some (x, b') => let '(xs, b'') := drain_sse m l b' in (x :: xs, b'')
      end
  end.

(** The events queued for the object at [l]. *)
Definition queued (b : Broadcaster) (l : loc) : option (list SSEEvent) :=
  (buf ∘ sseChannel) <$> heap b !! l.

(** The cancel signals queued for the object at [l]. *)
Definition signals (b : Broadcaster) (l : loc) : option (list bool) :=
  (buf ∘ cancelChannel) <$> heap b !! l.

End Broadcaster.

(** ** The embedding calculator service (package background) *)

Module Pipeline.
Import Chan.

Local Open Scope Z_scope.

(** [DefinitionToEmbed] *)
Record DefinitionToEmbed : Type := { ID : Z; Text : string }.

(** One of the three numbers of the dummy embedding,
    [float32(def.ID) + float32(j)*0.1 + float32(workerID)*0.01], kept as
    the three integers it is computed from. *)
Record fake_number : Type := { of_id : Z; of_index : nat; of_worker : nat }.

(** [EmbeddingResult]; [Error] is [None] for nil. *)
Record EmbeddingResult : Type := {
  DefinitionID : Z;
  Embedding : list fake_number;
  Error : option string
}.

Definition numProcessorWorkers : nat := 3.

(** The body of a processor worker's loop between its receive and its
    send: the result it builds for [def]. *)
Definition process (workerID : nat) (def : DefinitionToEmbed) : EmbeddingResult :=
  {| DefinitionID := ID def;
     Embedding := map (fun j => {| of_id := ID def; of_index := j; of_worker := workerID |})
                      (seq 0 3);
     Error := None |}.

(** [dummyDefinitions] of fetchAndSendDefinitions. [sec1] and [sec2] are
    what the two calls of [time.Now().Second()] gave, [kitchen] the
    formatted time of day. *)
Definition dummyDefinitions (sec1 sec2 : Z) (kitchen : string) : list DefinitionToEmbed :=
  [ {| ID := sec1 * 100 + 1; Text := "Definition fetched at " +:+ kitchen |};
    {| ID := sec2 * 100 + 2; Text := "Another sample definition text for embedding." |} ].

(** A value of [time.Now().Second()]. *)
Definition is_second (s : Z) : bool := (0 <=? s) && (s <? 60).

(** What has happened so far; the comment gives the line logged with it. *)
Inductive event : Type :=
| ETick                                  (* "Embedding calculator tick: ..." *)
| EFetchSent (id : Z)                    (* sent; "Fetcher logic: Sent definition ID %d to process." *)
| EFetchSkipped (id : Z)                 (* not sent; "... is full. Skipping definition ID %d for this tick." *)
| ECloseDefs                             (* close(defsToProcessChan) *)
| EWorkerRecv (w : nat) (def : DefinitionToEmbed)  (* "Processor Worker %d: Received definition ID: %d ..." *)
| EWorkerSend (w : nat) (id : Z)         (* resultsChan <- result *)
| EWorkerDone (w : nat)                  (* loop over, processorsWg.Done() *)
| ECloseResults                          (* close(resultsChan) *)
| EUpdaterRecv (r : EmbeddingResult)     (* "Updater: Simulating update ..." or "Updater: Error ..." *)
| EUpdaterDone                           (* loop over, mainWg.Done() *)
| EOrchReturn.                           (* the orchestrator goroutine returns *)

#[global] Instance DefinitionToEmbed_eq_dec : EqDecision DefinitionToEmbed.
Proof. solve_decision. Defined.
#[global] Instance fake_number_eq_dec : EqDecision fake_number.
Proof. solve_decision. Defined.
#[global] Instance EmbeddingResult_eq_dec : EqDecision EmbeddingResult.
Proof. solve_decision. Defined.
#[global] Instance event_eq_dec : EqDecision event.
Proof. solve_decision. Defined.

(** Where the orchestrator goroutine is. *)
Inductive orch_pc : Type :=
| OSpawn (i : nat)                        (* head of the for loop starting workers *)
| OSpawnUpdater
| OSpawnCloser
| OLoop                                   (* at the select *)
| OFetch (todo : list DefinitionToEmbed)  (* in fetchAndSendDefinitions, items left *)
| OWaitMain                               (* in mainWg.Wait() *)
| OReturned.

Inductive worker_pc : Type :=
| WRange                                  (* at [for def := range defsToProcessChan] *)
| WSend (result : EmbeddingResult)        (* at [resultsChan <- result] *)
| WDone.                                  (* returned *)

Inductive updater_pc : Type := URange | UDone.

Inductive closer_pc : Type :=
| CWait                                   (* in processorsWg.Wait() *)
| CClose                                  (* Wait returned, before close(resultsChan) *)
| CDone.

Record state : Type := {
  defsToProcessChan : chan DefinitionToEmbed;
  resultsChan : chan EmbeddingResult;
  processorsWg : nat;
  mainWg : nat;
  stopChan : bool;                        (* closed by main? *)
  orch : orch_pc;
  workers : list worker_pc;               (* worker [i] is entry [i] *)
  updater : option updater_pc;            (* [None]: not started yet *)
  closer : option closer_pc;
  crashed : bool;                         (* a goroutine panicked *)
  events : list event                     (* newest first *)
}.

(** The state in which StartEmbeddingCalculatorService returns: channels
    made, wait groups at zero, the orchestrator goroutine launched. *)
Definition start : state :=
  {| defsToProcessChan := make 10; resultsChan := make 10;
     processorsWg := 0; mainWg := 0; stopChan := false;
     orch := OSpawn 0; workers := []; updater := None; closer := None;
     crashed := false; events := [] |}.

Definition crash (s : state) : state :=
  {| defsToProcessChan := defsToProcessChan s; resultsChan := resultsChan s;
     processorsWg := processorsWg s; mainWg := mainWg s; stopChan := stopChan s;
     orch := orch s; workers := workers s; updater := updater s; closer := closer s;
     crashed := true; events := events s |}.

(** The [select] with [default] of fetchAndSendDefinitions for one item:
    the channel and the event it leaves, or [None] for the panic of a
    send on a closed channel. *)
Definition try_enqueue (def : DefinitionToEmbed) (c : chan DefinitionToEmbed)
    : option (chan DefinitionToEmbed * event) :=
  match try_send c def with
  | Sent c' => Some (c', EFetchSent (ID def))
  | WouldBlock => Some (c, EFetchSkipped (ID def))
  | SendOnClosed => None
  end.

(** The orchestrator's next statement other than the select. *)
Definition orch_step (s : state) : option state :=
  match orch s with
  | OSpawn i =>
      (* processorsWg.Add(1); go func(workerID) {...}(i); i++ *)
      Some {| defsToProcessChan := defsToProcessChan s; resultsChan := resultsChan s;
              processorsWg := S (processorsWg s); mainWg := mainWg s;
              stopChan := stopChan s;
              orch := if (S i <? numProcessorWorkers)%nat then OSpawn (S i) else OSpawnUpdater;
              workers := workers s ++ [WRange];
              updater := updater s; closer := closer s;
              crashed := crashed s; events := events s |}
  | OSpawnUpdater =>
      (* mainWg.Add(1); go func() {...}() *)
      Some {| defsToProcessChan := defsToProcessChan s; resultsChan := resultsChan s;
              processorsWg := processorsWg s; mainWg := S (mainWg s);
              stopChan := stopChan s; orch := OSpawnCloser; workers := workers s;
              updater := Some URange; closer := closer s;
              crashed := crashed s; events := events s |}
  | OSpawnCloser =>
      Some {| defsToProcessChan := defsToProcessChan s; resultsChan := resultsChan s;
              processorsWg := processorsWg s; mainWg := mainWg s;
              stopChan := stopChan s; orch := OLoop; workers := workers s;
              updater := updater s; closer := Some CWait;
              crashed := crashed s; events := events s |}
  | OLoop => None
  | OFetch [] =>
      (* fetchAndSendDefinitions returns; back to the select *)
      Some {| defsToProcessChan := defsToProcessChan s; resultsChan := resultsChan s;
              processorsWg := processorsWg s; mainWg := mainWg s;
              stopChan := stopChan s; orch := OLoop; workers := workers s;
              updater := updater s; closer := closer s;
              crashed := crashed s; events := events s |}
  | OFetch (def :: todo) =>
      match try_enqueue def (defsToProcessChan s) with
      | Some (c, e) =>
          Some {| defsToProcessChan := c; resultsChan := resultsChan s;
                  processorsWg := processorsWg s; mainWg := mainWg s;
                  stopChan := stopChan s; orch := OFetch todo; workers := workers s;
                  updater := updater s; closer := closer s;
                  crashed := crashed s; events := e :: events s |}
      | None => Some (crash s)
      end
  | OWaitMain =>
      (* mainWg.Wait() returns at zero; then return *)
      match mainWg s with
      | O =>
          Some {| defsToProcessChan := defsToProcessChan s; resultsChan := resultsChan s;
                  processorsWg := processorsWg s; mainWg := mainWg s;
                  stopChan := stopChan s; orch := OReturned; workers := workers s;
                  updater := updater s; closer := closer s;
                  crashed := crashed s; events := EOrchReturn :: events s |}
      | S _ => None
      end
  | OReturned => None
  end.

(** The tick case of the select. *)
Definition tick_step (sec1 sec2 : Z) (kitchen : string) (s : state) : option state :=
  match orch s with
  | OLoop =>
      if is_second sec1 && is_second sec2 then
        Some {| defsToProcessChan := defsToProcessChan s; resultsChan := resultsChan s;
                processorsWg := processorsWg s; mainWg := mainWg s;
                stopChan := stopChan s;
                orch := OFetch (dummyDefinitions sec1 sec2 kitchen);
                workers := workers s; updater := updater s; closer := closer s;
                crashed := crashed s; events := ETick :: events s |}
      else None
  | _ => None
  end.

(** The stopChan case of the select: ready once stopChan is closed. *)
Definition stop_step (s : state) : option state :=
  match orch s with
  | OLoop =>
      if stopChan s then
        match close (defsToProcessChan s) with
        | Some c =>
            Some {| defsToProcessChan := c; resultsChan := resultsChan s;
                    processorsWg := processorsWg s; mainWg := mainWg s;
                    stopChan := stopChan s; orch := OWaitMain; workers := workers s;
                    updater := updater s; closer := closer s;
                    crashed := crashed s; events := ECloseDefs :: events s |}
        | None => Some (crash s)
        end
      else None
  | _ => None
  end.

(** main's [close(embeddingStopChan)], done once. *)
Definition close_stop_step (s : state) : option state :=
  if stopChan s then None
  else Some {| defsToProcessChan := defsToProcessChan s; resultsChan := resultsChan s;
               processorsWg := processorsWg s; mainWg := mainWg s;
               stopChan := true; orch := orch s; workers := workers s;
               updater := updater s; closer := closer s;
               crashed := crashed s; events := events s |}.

(** [processorsWg.Done()] and [mainWg.Done()]: a counter at zero panics. *)
Definition wg_done (n : nat) : option nat :=
  match n with O => None | S m => Some m end.

(** Processor worker [w]: the head of its range loop (receive, or leave
    when the channel is closed and empty, running the deferred Done), or
    its send of the result. *)
Definition worker_step (w : nat) (s : state) : option state :=
  match workers s !! w with
  | Some WRange =>
      match pop (defsToProcessChan s) with
      | Some (def, c) =>
          Some {| defsToProcessChan := c; resultsChan := resultsChan s;
                  processorsWg := processorsWg s; mainWg := mainWg s;
                  stopChan := stopChan s; orch := orch s;
                  workers := <[w := WSend (process w def)]> (workers s);
                  updater := updater s; closer := closer s;
                  crashed := crashed s; events := EWorkerRecv w def :: events s |}
      | None =>
          if closed (defsToProcessChan s) then
            match wg_done (processorsWg s) with
            | Some n =>
                Some {| defsToProcessChan := defsToProcessChan s;
                        resultsChan := resultsChan s;
                        processorsWg := n; mainWg := mainWg s;
                        stopChan := stopChan s; orch := orch s;
                        workers := <[w := WDone]> (workers s);
                        updater := updater s; closer := closer s;
                        crashed := crashed s; events := EWorkerDone w :: events s |}
            | None => Some (crash s)
            end
          else None
      end
  | Some (WSend result) =>
      if closed (resultsChan s) then Some (crash s)
      else if full (resultsChan s) then None
      else
        Some {| defsToProcessChan := defsToProcessChan s;
                resultsChan := push (resultsChan s) result;
                processorsWg := processorsWg s; mainWg := mainWg s;
                stopChan := stopChan s; orch := orch s;
                workers := <[w := WRange]> (workers s);
                updater := updater s; closer := closer s;
                crashed := crashed s;
                events := EWorkerSend w (DefinitionID result) :: events s |}
  | Some WDone | None => None
  end.

(** The updater: the head of its range loop over resultsChan. *)
Definition updater_step (s : state) : option state :=
  match updater s with
  | Some URange =>
      match pop (resultsChan s) with
      | Some (result, c) =>
          Some {| defsToProcessChan := defsToProcessChan s; resultsChan := c;
                  processorsWg := processorsWg s; mainWg := mainWg s;
                  stopChan := stopChan s; orch := orch s; workers := workers s;
                  updater := updater s; closer := closer s;
                  crashed := crashed s; events := EUpdaterRecv result :: events s |}
      | None =>
          if closed (resultsChan s) then
            match wg_done (mainWg s) with
            | Some n =>
                Some {| defsToProcessChan := defsToProcessChan s;
                        resultsChan := resultsChan s;
                        processorsWg := processorsWg s; mainWg := n;
                        stopChan := stopChan s; orch := orch s; workers := workers s;
                        updater := Some UDone; closer := closer s;
                        crashed := crashed s; events := EUpdaterDone :: events s |}
            | None => Some (crash s)
            end
          else None
      end
  | _ => None
  end.

(** The goroutine that closes resultsChan. *)
Definition closer_step (s : state) : option state :=
  match closer s with
  | Some CWait =>
      match processorsWg s with
      | O =>
          Some {| defsToProcessChan := defsToProcessChan s; resultsChan := resultsChan s;
                  processorsWg := processorsWg s; mainWg := mainWg s;
                  stopChan := stopChan s; orch := orch s; workers := workers s;
                  updater := updater s; closer := Some CClose;
                  crashed := crashed s; events := events s |}
      | S _ => None
      end
  | Some CClose =>
      match close (resultsChan s) with
      | Some c =>
          Some {| defsToProcessChan := defsToProcessChan s; resultsChan := c;
                  processorsWg := processorsWg s; mainWg := mainWg s;
                  stopChan := stopChan s; orch := orch s; workers := workers s;
                  updater := updater s; closer := Some CDone;
                  crashed := crashed s; events := ECloseResults :: events s |}
      | None => Some (crash s)
      end
  | _ => None
  end.

(** Who moves. *)
Inductive label : Type :=
| LOrch
| LTick (sec1 sec2 : Z) (kitchen : string)
| LStop
| LCloseStopChan
| LWorker (w : nat)
| LUpdater
| LCloser.

(** One step of the program; [None] when that goroutine is blocked or
    gone, or the process has crashed. *)
Definition exec (l : label) (s : state) : option state :=
  if crashed s then None
  else
    match l with
    | LOrch => orch_step s
    | LTick sec1 sec2 kitchen => tick_step sec1 sec2 kitchen s
    | LStop => stop_step s
    | LCloseStopChan => close_stop_step s
    | LWorker w => worker_step w s
    | LUpdater => updater_step s
    | LCloser => closer_step s
    end.

Fixpoint run (ls : list label) (s : state) : option state :=
  match ls with
  | [] => Some s
  | l :: rest => s' ← exec l s; run rest s'
  end.

Inductive reachable : state -> Prop :=
| reach_start : reachable start
| reach_step l s s' : reachable s -> exec l s = Some s' -> reachable s'.

(** fetchAndSendDefinitions run from its first line to its last with no
    other goroutine moving in between. [dbPool] is the handle it is given
    ([None] for a nil pointer) and never uses. The function declares no
    results: the first component is the empty tuple it returns, the second
    the channel it leaves and the events in order; [None] is a panic. *)
Definition fetchAndSendDefinitions (dbPool : option positive)
    (sec1 sec2 : Z) (kitchen : string) (c : chan DefinitionToEmbed)
    : option (list string * (chan DefinitionToEmbed * list event)) :=
  foldl (fun acc def =>
           '(rs, (c, es)) ← acc;
           '(c', e) ← try_enqueue def c;
           Some (rs, (c', es ++ [e])))
        (Some ([], (c, [])))
        (dummyDefinitions sec1 sec2 kitchen).

(** *** Reading the history *)

(** The history in the order it happened. *)
Definition history (s : state) : list event := reverse (events s).

(** Every occurrence of [b] comes after an occurrence of [a]. *)
Definition before (a b : event) (h : list event) : Prop :=
  ∀ h1 h2, h = h1 ++ b :: h2 -> a ∈ h1.

(** The event [e] is an action of worker [w]. *)
Definition by_worker (w : nat) (e : event) : Prop :=
  match e with
  | EWorkerRecv w' _ | EWorkerSend w' _ | EWorkerDone w' => w' = w
  | _ => False
  end.

(** Nothing worker [w] does comes after its [EWorkerDone]. *)
Definition exits_for_good (w : nat) (h : list event) : Prop :=
  ∀ h1 h2, h = h1 ++ EWorkerDone w :: h2 -> ∀ e, e ∈ h2 -> ¬ by_worker w e.

(** The items the fetcher put into defsToProcessChan. *)
Definition enqueued_ids (h : list event) : list Z :=
  omap (fun e => match e with EFetchSent id => Some id | _ => None end) h.

(** The items the workers received. *)
Definition received_ids (h : list event) : list Z :=
  omap (fun e => match e with EWorkerRecv _ def => Some (ID def) | _ => None end) h.

(** The results the workers sent. *)
Definition sent_ids (h : list event) : list Z :=
  omap (fun e => match e with EWorkerSend _ id => Some id | _ => None end) h.

(** The results the updater received. *)
Definition sunk_ids (h : list event) : list Z :=
  omap (fun e => match e with EUpdaterRecv r => Some (DefinitionID r) | _ => None end) h.

(** *** Invariants and sample runs *)

Local Open Scope nat_scope.

Definition shutting (pc : orch_pc) : bool :=
  match pc with OWaitMain | OReturned => true | _ => false end.

(** Workers that have not returned. *)
Fixpoint live (ws : list worker_pc) : nat :=
  match ws with
  | [] => 0
  | WDone :: r => live r
  | _ :: r => S (live r)
  end.

Record Core (s : state) : Prop := {
  core_alive : crashed s = false;
  core_wg : processorsWg s = live (workers s);
  core_phase :
    match orch s with
    | OSpawn i =>
        i < 3 ∧ length (workers s) = i ∧ updater s = None ∧ closer s = None
    | OSpawnUpdater =>
        length (workers s) = 3 ∧ updater s = None ∧ closer s = None
    | OSpawnCloser =>
        length (workers s) = 3 ∧ updater s = Some URange ∧ closer s = None
    | _ => length (workers s) = 3 ∧ is_Some (updater s) ∧ is_Some (closer s)
    end;
  core_main : mainWg s = match updater s with Some URange => 1 | _ => 0 end;
  core_defs : closed (defsToProcessChan s) = shutting (orch s);
  core_results : closed (resultsChan s) = true ↔ closer s = Some CDone;
  core_closer :
    closer s = Some CClose ∨ closer s = Some CDone → live (workers s) = 0;
  core_drained :
    ∀ w, workers s !! w = Some WDone →
      closed (defsToProcessChan s) = true ∧ buf (defsToProcessChan s) = [];
  core_updater :
    updater s = Some UDone →
      closed (resultsChan s) = true ∧ buf (resultsChan s) = [];
  core_returned : orch s = OReturned → updater s = Some UDone
}.

(** [before] and [exits_for_good] on the list kept newest first. *)
Definition follows (a b : event) (es : list event) : Prop :=
  ∀ l1 l2, es = l1 ++ b :: l2 → a ∈ l2.

Definition quiet (w : nat) (es : list event) : Prop :=
  ∀ l1 l2, es = l1 ++ EWorkerDone w :: l2 → ∀ e, e ∈ l1 → ¬ by_worker w e.

Record Hist (s : state) : Prop := {
  h_defs : closed (defsToProcessChan s) = true → ECloseDefs ∈ events s;
  h_worker : ∀ w, workers s !! w = Some WDone ↔ EWorkerDone w ∈ events s;
  h_results : closed (resultsChan s) = true → ECloseResults ∈ events s;
  h_updater : updater s = Some UDone → EUpdaterDone ∈ events s;
  h_return : orch s = OReturned → EOrchReturn ∈ events s;
  h_o1 : ∀ w, w < numProcessorWorkers → follows (EWorkerDone w) ECloseResults (events s);
  h_o2 : ∀ w, follows ECloseDefs (EWorkerDone w) (events s);
  h_o3 : follows ECloseResults EUpdaterDone (events s);
  h_o4 : follows EUpdaterDone EOrchReturn (events s);
  h_quiet : ∀ w, quiet w (events s)
}.

(** The results workers hold between their receive and their send. *)
Definition held (ws : list worker_pc) : list Z :=
  omap (fun p => match p with WSend r => Some (DefinitionID r) | _ => None end) ws.

Record Cons (s : state) : Prop := {
  k_enqueued :
    enqueued_ids (events s) ≡ₚ
      received_ids (events s) ++ map ID (buf (defsToProcessChan s));
  k_received :
    received_ids (events s) ≡ₚ sent_ids (events s) ++ held (workers s);
  k_sent :
    sent_ids (events s) ≡ₚ
      sunk_ids (events s) ++ map DefinitionID (buf (resultsChan s))
}.

(** The three workers, the updater and the closer are started. *)
Definition spawn_all : list label := [LOrch; LOrch; LOrch; LOrch; LOrch].

(** A tick at second [sec]: both items are enqueued, workers 0 and 1 take
    one each and send their results, the updater takes both. *)
Definition tick_round (sec : Z) : list label :=
  [LTick sec sec "3:04PM"; LOrch; LOrch; LOrch;
   LWorker 0; LWorker 1; LWorker 0; LWorker 1; LUpdater; LUpdater].

(** main closes stopChan and everything winds down. *)
Definition shut_down : list label :=
  [LCloseStopChan; LStop; LWorker 0; LWorker 1; LWorker 2;
   LCloser; LCloser; LUpdater; LOrch].

(** Five ticks a quarter of a minute apart, then the shutdown. *)
Definition minute_run : list label :=
  spawn_all ++ tick_round 7 ++ tick_round 22 ++ tick_round 37 ++ tick_round 52
    ++ tick_round 7 ++ shut_down.

Definition after_minute_run : state :=
  Eval vm_compute in default start (run minute_run start).

(** In the middle of the first fetch: one item tried, one to go. *)
Definition mid_fetch : state :=
  Eval vm_compute in default start (run (spawn_all ++ [LTick 7 7 "3:04PM"; LOrch]) start).

(** The second claim as the specification states it: once the orchestrator has returned, the updater
    has received as many results as items were enqueued, and their
    identifiers are distinct. *)
Definition sink_gets_distinct_results : Prop :=
  ∀ s, reachable s → orch s = OReturned →
    length (sunk_ids (history s)) = length (enqueued_ids (history s)) ∧
    NoDup (sunk_ids (history s)).


(** *** Further invariants *)

(** Sizes the program keeps. *)
Record Bounds (s : state) : Prop := {
  b_defs_cap : cap (defsToProcessChan s) = 10;
  b_results_cap : cap (resultsChan s) = 10;
  b_defs_len : length (buf (defsToProcessChan s)) ≤ 10;
  b_results_len : length (buf (resultsChan s)) ≤ 10;
  b_stop : shutting (orch s) = true → stopChan s = true
}.

(** What is left to do before the orchestrator has returned: three steps for
    an item still in defsToProcessChan, two for one a worker holds, one for
    a result in resultsChan; the exit of each worker; the two steps of the
    closer and the exit of the updater; the orchestrator's own statements. *)
Definition orch_left (pc : orch_pc) : nat :=
  match pc with
  | OSpawn i => 7 + 2 * (3 - i)
  | OSpawnUpdater => 6
  | OSpawnCloser => 5
  | OFetch todo => 4 + 4 * length todo
  | OLoop => 2
  | OWaitMain => 1
  | OReturned => 0
  end.

Definition closer_left (c : option closer_pc) : nat :=
  match c with Some CDone => 0 | Some CClose => 1 | _ => 2 end.

Definition updater_left (u : option updater_pc) : nat :=
  match u with Some UDone => 0 | _ => 1 end.

Definition left (s : state) : nat :=
  orch_left (orch s) + (if stopChan s then 0 else 1)
  + 3 * length (buf (defsToProcessChan s)) + 2 * length (held (workers s))
  + length (buf (resultsChan s))
  + live (workers s) + closer_left (closer s) + updater_left (updater s).

(** Events of the sending side of defsToProcessChan. *)
Definition on_defs (e : event) : Prop :=
  match e with
  | ETick | EFetchSent _ | EFetchSkipped _ | ECloseDefs => True
  | _ => False
  end.

(** Events of the sending side of resultsChan. *)
Definition on_results (e : event) : Prop :=
  match e with
  | EWorkerSend _ _ | ECloseResults => True
  | _ => False
  end.

(** Nothing of kind [P] comes after [c] in the history. *)
Definition last_of (P : event → Prop) (c : event) (h : list event) : Prop :=
  ∀ h1 h2, h = h1 ++ c :: h2 → ∀ e, e ∈ h2 → ¬ P e.

(** The identifiers worker [w] received, oldest first. *)
Definition received_by (w : nat) (h : list event) : list Z :=
  omap (fun e => match e with
                 | EWorkerRecv w' def => if decide (w' = w) then Some (ID def) else None
                 | _ => None
                 end) h.

(** The identifiers of the results worker [w] sent, oldest first. *)
Definition sent_by (w : nat) (h : list event) : list Z :=
  omap (fun e => match e with
                 | EWorkerSend w' id => if decide (w' = w) then Some id else None
                 | _ => None
                 end) h.

(** The identifier worker [w] is about to send, if it is at its send. *)
Definition in_hand (w : nat) (ws : list worker_pc) : list Z :=
  match ws !! w with
  | Some (WSend r) => [DefinitionID r]
  | _ => []
  end.

(** A result as a worker builds it from an item it received. *)
Definition made_from (es : list event) (r : EmbeddingResult) : Prop :=
  ∃ w def, EWorkerRecv w def ∈ es ∧ r = process w def.

(** [last_of] on the list kept newest first. *)
Definition sealed (P : event → Prop) (c : event) (es : list event) : Prop :=
  ∀ l1 l2, es = l1 ++ c :: l2 → ∀ e, e ∈ l1 → ¬ P e.

Record Closing (s : state) : Prop := {
  cl_defs : ECloseDefs ∈ events s → closed (defsToProcessChan s) = true;
  cl_results : ECloseResults ∈ events s → closed (resultsChan s) = true;
  cl_defs_sealed : sealed on_defs ECloseDefs (events s);
  cl_results_sealed : sealed on_results ECloseResults (events s)
}.

Record Handled (s : state) : Prop := {
  hd_order : ∀ w, received_by w (events s) = in_hand w (workers s) ++ sent_by w (events s);
  hd_buffered : ∀ r, r ∈ buf (resultsChan s) → made_from (events s) r;
  hd_held : ∀ w r, workers s !! w = Some (WSend r) → made_from (events s) r;
  hd_sunk : ∀ r, EUpdaterRecv r ∈ events s → made_from (events s) r;
  hd_worker : ∀ w def, EWorkerRecv w def ∈ events s → w < length (workers s)
}.

End Pipeline.

(** ** Facts about channels *)

Module ChanFacts.
Import Chan.

Lemma try_send_sent {A} (c c' : chan A) x :
  try_send c x = Sent c' →
  closed c = false ∧ length (buf c) < cap c ∧ c' = push c x.
Proof.
  unfold try_send, full. destruct (closed c); [done|].
  destruct (cap c <=? length (buf c)) eqn:E; [done|].
  apply Nat.leb_gt in E. intros [= <-]. done.
Qed.

Lemma try_send_would_block {A} (c : chan A) x :
  try_send c x = WouldBlock → closed c = false ∧ cap c ≤ length (buf c).
Proof.
  unfold try_send, full. destruct (closed c); [done|].
  destruct (cap c <=? length (buf c)) eqn:E; [|done].
  apply Nat.leb_le in E. done.
Qed.

Lemma try_send_on_closed {A} (c : chan A) x :
  try_send c x = SendOnClosed → closed c = true.
Proof.
  unfold try_send. destruct (closed c); [done|]. by destruct (full c).
Qed.

Lemma pop_some {A} (c c' : chan A) x :
  pop c = Some (x, c') →
  buf c = x :: buf c' ∧ cap c' = cap c ∧ closed c' = closed c.
Proof. unfold pop. destruct (buf c) eqn:E; [done|]. intros [= <- <-]. done. Qed.

Lemma pop_none {A} (c : chan A) : pop c = None → buf c = [].
Proof. unfold pop. by destruct (buf c). Qed.

Lemma close_some {A} (c c' : chan A) :
  close c = Some c' →
  closed c = false ∧ buf c' = buf c ∧ cap c' = cap c ∧ closed c' = true.
Proof. unfold close. destruct (closed c); [done|]. by intros [= <-]. Qed.

Lemma close_none {A} (c : chan A) : close c = None → closed c = true.
Proof. unfold close. by destruct (closed c). Qed.

End ChanFacts.

(** ** The registry: invariants and claims *)

Module BroadcasterProofs.
Import Chan ChanFacts Broadcaster.

Lemma Inv_new : Inv NewBroadcaster.
Proof.
  split; simpl; intros *.
  - rewrite lookup_empty. by intros [? ?].
  - by rewrite lookup_empty.
  - by rewrite lookup_empty.
  - by rewrite lookup_empty.
Qed.

(** Replacing the object at [l] by one that is as open as it was. *)
Lemma Inv_set_heap b l ci ci' :
  Inv b → heap b !! l = Some ci → obj_ok ci' →
  (is_open ci → is_open ci') →
  Inv (set_heap b l ci').
Proof.
  intros [Hb Hr Hi Ho] Hl Hok Hopen. split; simpl.
  - intros l' [x Hx]. destruct (decide (l = l')) as [<-|Hne].
    + apply Hb. eauto.
    + rewrite lookup_insert_ne in Hx by done. apply Hb. eauto.
  - intros id l' Hid. destruct (Hr _ _ Hid) as (ci0 & H0 & Hop).
    destruct (decide (l = l')) as [<-|Hne].
    + exists ci'. rewrite lookup_insert_eq. split; [done|].
      apply Hopen. congruence.
    + exists ci0. by rewrite lookup_insert_ne.
  - exact Hi.
  - intros l' ci0. destruct (decide (l = l')) as [<-|Hne].
    + rewrite lookup_insert_eq. by intros [= <-].
    + rewrite lookup_insert_ne by done. apply Ho.
Qed.

Lemma Inv_NewClient id b : Inv b → Inv (NewClient id b).1.
Proof.
  intros [Hb Hr Hi Ho]. split; simpl.
  - intros l [x Hx]. destruct (decide (next b = l)) as [<-|Hne]; [lia|].
    rewrite lookup_insert_ne in Hx by done.
    assert (l < next b) by (apply Hb; eauto). lia.
  - intros id' l. destruct (decide (id = id')) as [<-|Hne].
    + rewrite lookup_insert_eq. intros [= <-]. eexists.
      rewrite lookup_insert_eq. split; [done|]. by split.
    + rewrite lookup_insert_ne by done. intros Hid.
      destruct (Hr _ _ Hid) as (ci & Hci & Hop). exists ci. split; [|done].
      rewrite lookup_insert_ne; [done|].
      intros <-. assert (next b < next b) by (apply Hb; eauto). lia.
  - intros i i' l.
    assert (Hfresh : ∀ j, clients b !! j = Some (next b) → False).
    { intros j Hj. destruct (Hr _ _ Hj) as (ci & Hci & _).
      assert (next b < next b) by (apply Hb; eauto). lia. }
    destruct (decide (id = i)) as [<-|Hne], (decide (id = i')) as [<-|Hne'];
      rewrite ?lookup_insert_eq, ?lookup_insert_ne by done; try done.
    + intros [= <-] Hj. by destruct (Hfresh _ Hj).
    + intros Hj [= <-]. by destruct (Hfresh _ Hj).
    + apply Hi.
  - intros l ci. destruct (decide (next b = l)) as [<-|Hne].
    + rewrite lookup_insert_eq. intros [= <-]. split; simpl; auto with lia.
    + rewrite lookup_insert_ne by done. apply Ho.
Qed.

Lemma Inv_Broadcast_send id l ev b : Inv b → Inv (state_of (Broadcast_send id l ev b)).
Proof.
  intros HI. unfold Broadcast_send.
  destruct (heap b !! l) as [ci|] eqn:Hl; [|done].
  destruct (try_send (sseChannel ci) ev) as [c| |] eqn:Hs; simpl; try done.
  apply try_send_sent in Hs as (Hc & Hlen & ->).
  destruct (inv_obj _ HI _ _ Hl) as [H1 H2 H3 H4 H5].
  eapply Inv_set_heap; [done|done| |].
  - split; simpl; auto. rewrite length_app. simpl. lia.
  - intros [? ?]. by split.
Qed.

Lemma Inv_Broadcast id ev b : Inv b → Inv (state_of (Broadcast id ev b)).
Proof.
  intros HI. unfold Broadcast.
  destruct (clients b !! id); [|done].
  destruct (heap b !! l) as [ci|]; [|done].
  destruct (isCancelled ci); [done|]. by apply Inv_Broadcast_send.
Qed.

Lemma Inv_CancelImport_locked id l b :
  Inv b → Inv (state_of (CancelImport_locked id l b)).
Proof.
  intros HI. unfold CancelImport_locked.
  destruct (heap b !! l) as [ci|] eqn:Hl; [|done].
  destruct (inv_obj _ HI _ _ Hl) as [H1 H2 H3 H4 H5].
  destruct (isCancelled ci) eqn:Hc; [done|].
  destruct (try_send (cancelChannel ci) true) as [c| |] eqn:Hs; simpl.
  - apply try_send_sent in Hs as (Hcl & Hlen & ->).
    eapply Inv_set_heap; [done|done| |].
    + split; simpl; auto; [rewrite length_app; simpl; lia|done].
    + intros [? ?]. by split.
  - eapply Inv_set_heap; [done|done| |]; [split; simpl; auto|by intros [? ?]].
  - eapply Inv_set_heap; [done|done| |]; [split; simpl; auto|by intros [? ?]].
Qed.

Lemma Inv_CancelImport id b : Inv b → Inv (state_of (CancelImport id b)).
Proof.
  intros HI. unfold CancelImport. destruct (clients b !! id); [|done].
  by apply Inv_CancelImport_locked.
Qed.

(** On a registered client RemoveClient returns, leaving this state. *)
Lemma RemoveClient_registered id l b :
  Inv b → clients b !! id = Some l →
  ∃ ci, heap b !! l = Some ci ∧
    RemoveClient id b =
      Ret {| clients := delete id (clients b);
             heap := <[l := {| sseChannel := Make (buf (sseChannel ci)) (cap (sseChannel ci)) true;
                               cancelChannel := Make (buf (cancelChannel ci)) (cap (cancelChannel ci)) true;
                               isCancelled := isCancelled ci |}]> (heap b);
             next := next b |} tt.
Proof.
  intros HI Hid. destruct (inv_reg _ HI _ _ Hid) as (ci & Hl & Ho1 & Ho2).
  exists ci. split; [done|]. unfold RemoveClient, close.
  by rewrite Hid, Hl, Ho1, Ho2.
Qed.

Lemma Inv_RemoveClient id b : Inv b → Inv (state_of (RemoveClient id b)).
Proof.
  intros HI. destruct (clients b !! id) as [l|] eqn:Hid.
  - destruct (RemoveClient_registered _ _ _ HI Hid) as (ci & Hl & ->). simpl.
    destruct HI as [Hb Hr Hi Ho]. split; simpl.
    + intros l' [x Hx]. destruct (decide (l = l')) as [<-|Hne]; [apply Hb; eauto|].
      rewrite lookup_insert_ne in Hx by done. apply Hb; eauto.
    + intros id' l'. destruct (decide (id = id')) as [<-|Hne].
      * by rewrite lookup_delete_eq.
      * rewrite lookup_delete_ne by done. intros Hid'.
        destruct (Hr _ _ Hid') as (ci' & Hci' & Hop). exists ci'. split; [|done].
        rewrite lookup_insert_ne; [done|]. intros <-. apply Hne. eapply Hi; eauto.
    + intros i i' l'.
      destruct (decide (id = i)) as [<-|Hne]; [by rewrite lookup_delete_eq|].
      destruct (decide (id = i')) as [<-|Hne']; [by rewrite lookup_delete_eq|].
      rewrite !lookup_delete_ne by done. apply Hi.
    + intros l' ci'. destruct (decide (l = l')) as [<-|Hne].
      * rewrite lookup_insert_eq. intros [= <-].
        destruct (Ho _ _ Hl). split; simpl; auto.
      * rewrite lookup_insert_ne by done. apply Ho.
  - unfold RemoveClient. by rewrite Hid.
Qed.

Lemma Inv_recv_sse l b x b' : Inv b → recv_sse l b = Some (x, b') → Inv b'.
Proof.
  intros HI. unfold recv_sse.
  destruct (heap b !! l) as [ci|] eqn:Hl; simpl; [|done].
  destruct (pop (sseChannel ci)) as [[y c]|] eqn:Hp; simpl; [|done].
  intros [= <- <-]. apply pop_some in Hp as (Hb & Hcap & Hcl).
  destruct (inv_obj _ HI _ _ Hl) as [H1 H2 H3 H4 H5].
  eapply Inv_set_heap; [done|done| |].
  - split; simpl; auto; try congruence. rewrite Hb in H3. simpl in H3. lia.
  - intros [? ?]. split; simpl; congruence.
Qed.

Lemma Inv_recv_cancel l b x b' : Inv b → recv_cancel l b = Some (x, b') → Inv b'.
Proof.
  intros HI. unfold recv_cancel.
  destruct (heap b !! l) as [ci|] eqn:Hl; simpl; [|done].
  destruct (pop (cancelChannel ci)) as [[y c]|] eqn:Hp; simpl; [|done].
  intros [= <- <-]. apply pop_some in Hp as (Hb & Hcap & Hcl).
  destruct (inv_obj _ HI _ _ Hl) as [H1 H2 H3 H4 H5].
  eapply Inv_set_heap; [done|done| |].
  - split; simpl; auto; try congruence.
    + rewrite Hb in H4. simpl in H4. lia.
    + intros Hc. specialize (H5 Hc). congruence.
  - intros [? ?]. split; simpl; congruence.
Qed.

Lemma Inv_exec a b b' : Inv b → exec a b = Some b' → Inv b'.
Proof.
  intros HI. destruct a; simpl.
  - intros [= <-]. by apply Inv_NewClient.
  - intros [= <-]. by apply Inv_Broadcast.
  - intros [= <-]. by apply Inv_CancelImport.
  - intros [= <-]. by apply Inv_RemoveClient.
  - intros [= <-]. by apply Inv_Broadcast_send.
  - intros [= <-]. by apply Inv_CancelImport_locked.
  - destruct (recv_sse l b) as [[x b0]|] eqn:E; simpl; [|done].
    intros [= <-]. eauto using Inv_recv_sse.
  - destruct (recv_cancel l b) as [[x b0]|] eqn:E; simpl; [|done].
    intros [= <-]. eauto using Inv_recv_cancel.
Qed.

Lemma reachable_Inv b : reachable b → Inv b.
Proof. induction 1; eauto using Inv_new, Inv_exec. Qed.

Lemma actions_reachable acts b b' : reachable b → run acts b = Some b' → reachable b'.
Proof.
  revert b. induction acts as [|a acts IH]; simpl; intros b Hb.
  - by intros [= <-].
  - destruct (exec a b) as [b1|] eqn:E; simpl; [|done].
    apply IH. by eapply reach_step.
Qed.

(** *** How the registry and the flags evolve *)

Lemma clients_set_heap b l ci : clients (set_heap b l ci) = clients b.
Proof. done. Qed.

Lemma clients_Broadcast_send id l ev b :
  clients (state_of (Broadcast_send id l ev b)) = clients b.
Proof.
  unfold Broadcast_send. destruct (heap b !! l); [|done].
  by destruct (try_send _ _).
Qed.

Lemma clients_Broadcast id ev b : clients (state_of (Broadcast id ev b)) = clients b.
Proof.
  unfold Broadcast. destruct (clients b !! id); [|done].
  destruct (heap b !! l) as [ci|]; [|done].
  destruct (isCancelled ci); [done|]. apply clients_Broadcast_send.
Qed.

Lemma clients_CancelImport_locked id l b :
  clients (state_of (CancelImport_locked id l b)) = clients b.
Proof.
  unfold CancelImport_locked. destruct (heap b !! l) as [ci|]; [|done].
  destruct (isCancelled ci); [done|]. by destruct (try_send _ _).
Qed.

Lemma clients_CancelImport id b : clients (state_of (CancelImport id b)) = clients b.
Proof.
  unfold CancelImport. destruct (clients b !! id); [|done].
  apply clients_CancelImport_locked.
Qed.

(** Only NewClient with that very ID registers [id]. *)
Lemma exec_keeps_absent id a b b' :
  Inv b → exec a b = Some b' → a ≠ ANewClient id →
  clients b !! id = None → clients b' !! id = None.
Proof.
  intros HI He Hne Hid. destruct a; simpl in He.
  - injection He as <-. simpl. rewrite lookup_insert_ne; [done|]. congruence.
  - injection He as <-. by rewrite clients_Broadcast.
  - injection He as <-. by rewrite clients_CancelImport.
  - injection He as <-.
    destruct (clients b !! clientID) as [l|] eqn:Hc.
    + destruct (RemoveClient_registered _ _ _ HI Hc) as (ci & _ & ->). simpl.
      destruct (decide (clientID = id)) as [->|?];
        [apply lookup_delete_eq | by rewrite lookup_delete_ne].
    + unfold RemoveClient. by rewrite Hc.
  - injection He as <-. by rewrite clients_Broadcast_send.
  - injection He as <-. by rewrite clients_CancelImport_locked.
  - destruct (recv_sse l b) as [[x b0]|] eqn:E; simpl in He; [|done].
    injection He as <-. unfold recv_sse in E.
    destruct (heap b !! l) as [ci|]; simpl in E; [|done].
    destruct (pop (sseChannel ci)) as [[y c]|]; simpl in E; [|done].
    by injection E as <- <-.
  - destruct (recv_cancel l b) as [[x b0]|] eqn:E; simpl in He; [|done].
    injection He as <-. unfold recv_cancel in E.
    destruct (heap b !! l) as [ci|]; simpl in E; [|done].
    destruct (pop (cancelChannel ci)) as [[y c]|]; simpl in E; [|done].
    by injection E as <- <-.
Qed.

Lemma run_keeps_absent id acts b b' :
  Inv b → run acts b = Some b' → ANewClient id ∉ acts →
  clients b !! id = None → clients b' !! id = None.
Proof.
  revert b. induction acts as [|a acts IH]; simpl; intros b HI Hr Hn Hid.
  - by injection Hr as <-.
  - destruct (exec a b) as [b1|] eqn:E; simpl in Hr; [|done].
    apply not_elem_of_cons in Hn as [Hne Hn].
    eapply (IH b1); eauto using Inv_exec, exec_keeps_absent.
Qed.

Lemma cancelled_set_heap b l0 ci0 ci' l :
  heap b !! l0 = Some ci0 →
  (isCancelled ci0 = true → isCancelled ci' = true) →
  cancelled_at b l = Some true → cancelled_at (set_heap b l0 ci') l = Some true.
Proof.
  unfold cancelled_at. intros H0 Himp. simpl.
  destruct (decide (l0 = l)) as [<-|Hne].
  - rewrite H0, lookup_insert_eq. simpl. intros [= Hc]. by rewrite Himp.
  - by rewrite lookup_insert_ne.
Qed.

(** A flag that is set stays set. *)
Lemma exec_keeps_cancelled l a b b' :
  Inv b → exec a b = Some b' →
  cancelled_at b l = Some true → cancelled_at b' l = Some true.
Proof.
  intros HI He Hc.
  assert (Hsend : ∀ id l0 ev,
    cancelled_at (state_of (Broadcast_send id l0 ev b)) l = Some true).
  { intros id l0 ev. unfold Broadcast_send.
    destruct (heap b !! l0) as [ci|] eqn:H0; [|done].
    destruct (try_send _ _); simpl; try done.
    eapply cancelled_set_heap; eauto. }
  assert (Hlocked : ∀ id l0,
    cancelled_at (state_of (CancelImport_locked id l0 b)) l = Some true).
  { intros id l0. unfold CancelImport_locked.
    destruct (heap b !! l0) as [ci|] eqn:H0; [|done].
    destruct (isCancelled ci); [done|].
    destruct (try_send _ _); simpl; eapply cancelled_set_heap; eauto. }
  destruct a; simpl in He.
  - injection He as <-. unfold cancelled_at in *. simpl.
    rewrite lookup_insert_ne; [done|]. intros <-.
    destruct (heap b !! next b) as [ci|] eqn:E; [|done].
    assert (next b < next b) by (apply (inv_bound _ HI); eauto). lia.
  - injection He as <-. unfold Broadcast.
    destruct (clients b !! clientID); [|done].
    destruct (heap b !! l0) as [ci|]; [|done].
    destruct (isCancelled ci); [done|]. apply Hsend.
  - injection He as <-. unfold CancelImport.
    destruct (clients b !! clientID); [|done]. apply Hlocked.
  - injection He as <-.
    destruct (clients b !! clientID) as [l0|] eqn:Hid.
    + destruct (RemoveClient_registered _ _ _ HI Hid) as (ci & Hl0 & ->). simpl.
      by apply (cancelled_set_heap b l0 ci).
    + unfold RemoveClient. by rewrite Hid.
  - injection He as <-. apply Hsend.
  - injection He as <-. apply Hlocked.
  - destruct (recv_sse l0 b) as [[x b0]|] eqn:E; simpl in He; [|done].
    injection He as <-. unfold recv_sse in E.
    destruct (heap b !! l0) as [ci|] eqn:H0; simpl in E; [|done].
    destruct (pop (sseChannel ci)) as [[y c]|]; simpl in E; [|done].
    injection E as <- <-. eapply cancelled_set_heap; eauto.
  - destruct (recv_cancel l0 b) as [[x b0]|] eqn:E; simpl in He; [|done].
    injection He as <-. unfold recv_cancel in E.
    destruct (heap b !! l0) as [ci|] eqn:H0; simpl in E; [|done].
    destruct (pop (cancelChannel ci)) as [[y c]|]; simpl in E; [|done].
    injection E as <- <-. eapply cancelled_set_heap; eauto.
Qed.

Lemma run_keeps_cancelled l acts b b' :
  Inv b → run acts b = Some b' →
  cancelled_at b l = Some true → cancelled_at b' l = Some true.
Proof.
  revert b. induction acts as [|a acts IH]; simpl; intros b HI Hr Hc.
  - by injection Hr as <-.
  - destruct (exec a b) as [b1|] eqn:E; simpl in Hr; [|done].
    eapply (IH b1); eauto using Inv_exec, exec_keeps_cancelled.
Qed.

(** CancelImport on a client whose flag is set. *)
Lemma CancelImport_cancelled id l b :
  clients b !! id = Some l → cancelled_at b l = Some true →
  CancelImport id b = Ret b (Some (err_already_cancelled id)).
Proof.
  unfold cancelled_at, CancelImport, CancelImport_locked. intros -> Hc.
  destruct (heap b !! l) as [ci|]; [|done]. simpl in Hc.
  injection Hc as ->. done.
Qed.

(** CancelImport on a registered client whose flag is clear. *)
Lemma CancelImport_first id l ci b :
  Inv b → clients b !! id = Some l → heap b !! l = Some ci → isCancelled ci = false →
  CancelImport id b =
    Ret (set_heap b l {| sseChannel := sseChannel ci;
                         cancelChannel := push (cancelChannel ci) true;
                         isCancelled := true |}) None.
Proof.
  intros HI Hid Hl Hc. unfold CancelImport, CancelImport_locked.
  rewrite Hid, Hl, Hc.
  destruct (inv_reg _ HI _ _ Hid) as (ci' & Hl' & _ & Hopen).
  assert (ci' = ci) as -> by congruence.
  destruct (inv_obj _ HI _ _ Hl) as [_ Hcap _ _ Hunf].
  unfold try_send, full. by rewrite Hopen, Hcap, (Hunf Hc).
Qed.

(** *** The claims about the registry *)

Lemma one_client_reachable : reachable one_client.
Proof.
  by apply (actions_reachable [ANewClient "a"] NewBroadcaster); [apply reach_new|].
Qed.

Lemma one_cancelled_reachable : reachable one_cancelled.
Proof.
  by apply (actions_reachable [ANewClient "a"; ACancelImport "a"] NewBroadcaster);
    [apply reach_new|].
Qed.

Lemma saturated_reachable : reachable saturated.
Proof.
  apply (actions_reachable (ANewClient "a" :: replicate 32 (ABroadcast "a" hello))
           NewBroadcaster); [apply reach_new|].
  by vm_compute.
Qed.

(** C3. On a registered client whose flag is clear, CancelImport returns
    nil and sets the flag; from then on, whatever else runs, as long as
    the ID is registered to that client the flag stays set and CancelImport
    returns the already-cancelled error and changes nothing. *)
Theorem CancelImport_once b id l ci :
  reachable b →
  clients b !! id = Some l → heap b !! l = Some ci → isCancelled ci = false →
  ∃ b1,
    CancelImport id b = Ret b1 None ∧
    cancelled_at b1 l = Some true ∧
    ∀ acts b2,
      run acts b1 = Some b2 → clients b2 !! id = Some l →
      cancelled_at b2 l = Some true ∧
      CancelImport id b2 = Ret b2 (Some (err_already_cancelled id)).
Proof.
  intros Hb Hid Hl Hc. apply reachable_Inv in Hb as HI.
  eexists. split; [by eapply CancelImport_first|].
  assert (Hset : cancelled_at
            (set_heap b l {| sseChannel := sseChannel ci;
                             cancelChannel := push (cancelChannel ci) true;
                             isCancelled := true |}) l = Some true).
  { unfold cancelled_at. simpl. by rewrite lookup_insert_eq. }
  split; [done|]. intros acts b2 Hrun Hid2.
  assert (HI1 : Inv (state_of (CancelImport id b))) by by apply Inv_CancelImport.
  erewrite CancelImport_first in HI1 by done. simpl in HI1.
  assert (cancelled_at b2 l = Some true) by eauto using run_keeps_cancelled.
  split; [done|]. by eapply CancelImport_cancelled.
Qed.

Lemma CancelImport_once_witness :
  ∃ b1,
    CancelImport "a" one_client = Ret b1 None ∧
    cancelled_at b1 0 = Some true ∧
    ∀ acts b2,
      run acts b1 = Some b2 → clients b2 !! "a" = Some 0 →
      cancelled_at b2 0 = Some true ∧
      CancelImport "a" b2 = Ret b2 (Some (err_already_cancelled "a")).
Proof.
  eapply (CancelImport_once one_client "a" 0);
    [apply one_client_reachable | reflexivity | reflexivity | reflexivity].
Defined.

(** C4. RemoveClient on a registered client returns and deletes the
    entry; after it, and after anything else that runs without NewClient
    drawing the same ID again, Broadcast and CancelImport for that ID
    return their not-found errors. *)
Theorem RemoveClient_isolates b id l :
  reachable b → clients b !! id = Some l →
  ∃ b1,
    RemoveClient id b = Ret b1 tt ∧
    clients b1 !! id = None ∧
    ∀ acts b2,
      run acts b1 = Some b2 → ANewClient id ∉ acts →
      ∀ ev,
        Broadcast id ev b2 = Ret b2 (Some (err_not_found id)) ∧
        CancelImport id b2 = Ret b2 (Some (err_not_found_cancel id)).
Proof.
  intros Hb Hid. apply reachable_Inv in Hb as HI.
  destruct (RemoveClient_registered _ _ _ HI Hid) as (ci & Hl & Heq).
  assert (HI1 : Inv (state_of (RemoveClient id b))) by by apply Inv_RemoveClient.
  rewrite Heq in HI1 |- *. simpl in HI1.
  eexists. split; [done|]. split; [apply lookup_delete_eq|].
  intros acts b2 Hrun Hfresh ev.
  assert (Hnone : clients b2 !! id = None).
  { eapply run_keeps_absent; eauto. apply lookup_delete_eq. }
  unfold Broadcast, CancelImport. by rewrite Hnone.
Qed.

Lemma RemoveClient_isolates_witness :
  ∃ b1,
    RemoveClient "a" one_client = Ret b1 tt ∧
    clients b1 !! "a" = None ∧
    ∀ acts b2,
      run acts b1 = Some b2 → ANewClient "a" ∉ acts →
      ∀ ev,
        Broadcast "a" ev b2 = Ret b2 (Some (err_not_found "a")) ∧
        CancelImport "a" b2 = Ret b2 (Some (err_not_found_cancel "a")).
Proof.
  eapply (RemoveClient_isolates one_client "a" 0);
    [apply one_client_reachable | reflexivity].
Defined.

(** C5. Broadcast to a registered client whose flag is set returns nil
    and leaves every channel as it was: the event is not queued. *)
Theorem Broadcast_cancelled_noop b id l ci ev :
  clients b !! id = Some l → heap b !! l = Some ci → isCancelled ci = true →
  Broadcast id ev b = Ret b None.
Proof. intros Hid Hl Hc. unfold Broadcast. by rewrite Hid, Hl, Hc. Qed.

Lemma Broadcast_cancelled_noop_witness :
  Broadcast "a" hello one_cancelled = Ret one_cancelled None.
Proof.
  eapply (Broadcast_cancelled_noop one_cancelled "a" 0); reflexivity.
Defined.

(** C6. Broadcast to a registered client whose flag is clear and whose
    event channel holds 32 events returns the send-failed error at once
    and leaves every channel as it was. *)
Theorem Broadcast_saturated b id l ci ev :
  reachable b →
  clients b !! id = Some l → heap b !! l = Some ci → isCancelled ci = false →
  length (buf (sseChannel ci)) = 32 →
  Broadcast id ev b = Ret b (Some (err_send_failed id)).
Proof.
  intros Hb Hid Hl Hc Hlen. apply reachable_Inv in Hb as HI.
  destruct (inv_reg _ HI _ _ Hid) as (ci' & Hl' & Hopen & _).
  assert (ci' = ci) as -> by congruence.
  destruct (inv_obj _ HI _ _ Hl) as [Hcap _ _ _ _].
  unfold Broadcast, Broadcast_send, try_send, full.
  by rewrite Hid, Hl, Hc, Hopen, Hcap, Hlen.
Qed.

Lemma Broadcast_saturated_witness :
  Broadcast "a" hello saturated = Ret saturated (Some (err_send_failed "a")).
Proof.
  apply (Broadcast_saturated saturated "a" 0
           {| sseChannel := Make (replicate 32 hello) 32 false;
              cancelChannel := make 1; isCancelled := false |});
    [apply saturated_reachable | vm_compute; reflexivity
    | vm_compute; reflexivity | reflexivity | reflexivity].
Defined.

(** C9. In no state the program reaches does CancelImport return the
    failed-to-send-cancellation error, nor does the locked section of a
    call that is already under way on any client object; on a registered
    client it returns nil or the already-cancelled error. *)
Theorem CancelImport_never_send_failed b id :
  reachable b →
  returned (CancelImport id b) ≠ Some (Some (err_cancel_failed id)) ∧
  (∀ l, returned (CancelImport_locked id l b) ≠ Some (Some (err_cancel_failed id))) ∧
  (∀ l, clients b !! id = Some l →
     ∃ b', CancelImport id b = Ret b' None ∨
           CancelImport id b = Ret b' (Some (err_already_cancelled id))).
Proof.
  intros Hb. apply reachable_Inv in Hb as HI.
  assert (Hlocked : ∀ l,
    returned (CancelImport_locked id l b) ≠ Some (Some (err_cancel_failed id))).
  { intros l. unfold CancelImport_locked.
    destruct (heap b !! l) as [ci|] eqn:Hl; [|done].
    destruct (isCancelled ci) eqn:Hc; [simpl; by intros [=]|].
    destruct (inv_obj _ HI _ _ Hl) as [_ Hcap _ _ Hunf].
    unfold try_send, full. rewrite Hcap, (Hunf Hc).
    by destruct (closed (cancelChannel ci)). }
  split; [|split; [done|]].
  - unfold CancelImport. destruct (clients b !! id); [apply Hlocked|].
    simpl. by intros [=].
  - intros l Hid. destruct (inv_reg _ HI _ _ Hid) as (ci & Hl & _).
    destruct (isCancelled ci) eqn:Hc.
    + exists b. right. eapply CancelImport_cancelled; [done|].
      unfold cancelled_at. by rewrite Hl; simpl; rewrite Hc.
    + eexists. left. by eapply CancelImport_first.
Qed.

Lemma CancelImport_never_send_failed_witness :
  returned (CancelImport "a" one_cancelled) ≠ Some (Some (err_cancel_failed "a")) ∧
  (∀ l, returned (CancelImport_locked "a" l one_cancelled)
          ≠ Some (Some (err_cancel_failed "a"))) ∧
  (∀ l, clients one_cancelled !! "a" = Some l →
     ∃ b', CancelImport "a" one_cancelled = Ret b' None ∨
           CancelImport "a" one_cancelled = Ret b' (Some (err_already_cancelled "a"))).
Proof.
  apply (CancelImport_never_send_failed one_cancelled "a"),
    one_cancelled_reachable.
Defined.

(** C10. RemoveClient with an ID that is not in the map returns and
    leaves the broadcaster (the map, every client object and channel)
    exactly as it was. *)
Theorem RemoveClient_unknown b id :
  clients b !! id = None → RemoveClient id b = Ret b tt.
Proof. intros Hid. unfold RemoveClient. by rewrite Hid. Qed.

Lemma RemoveClient_unknown_witness :
  RemoveClient "b" one_client = Ret one_client tt.
Proof. apply (RemoveClient_unknown one_client "b"). reflexivity. Defined.

End BroadcasterProofs.

(** ** The pipeline: invariants and claims *)

Module PipelineProofs.
Import Chan ChanFacts Pipeline.

Lemma try_enqueue_some def c c' e :
  try_enqueue def c = Some (c', e) →
  closed c = false ∧ closed c' = false ∧ cap c' = cap c ∧
  (full c = false ∧ c' = push c def ∧ e = EFetchSent (ID def) ∨
   full c = true ∧ c' = c ∧ e = EFetchSkipped (ID def)).
Proof.
  unfold try_enqueue, try_send. destruct (closed c) eqn:Hc; [done|].
  destruct (full c); intros [= <- <-]; simpl; auto 10.
Qed.

Lemma try_enqueue_none def c : try_enqueue def c = None → closed c = true.
Proof.
  unfold try_enqueue, try_send. destruct (closed c); [done|]. by destruct (full c).
Qed.

Lemma wg_done_some n m : wg_done n = Some m → n = S m.
Proof. destruct n; simpl; congruence. Qed.

Lemma wg_done_none n : wg_done n = None → n = 0.
Proof. by destruct n. Qed.

(** Case analysis on a step. *)
Ltac step_cases H :=
  unfold exec in H;
  match type of H with
  | (if crashed ?s then _ else _) = _ => destruct (crashed s) eqn:?; [done|]
  end;
  match type of H with
  | match ?l with _ => _ end = _ => destruct l
  end;
  unfold orch_step, tick_step, stop_step, close_stop_step, worker_step,
    updater_step, closer_step in H;
  repeat case_match; simplify_eq; simpl in *.

(** *** The state invariant *)

Lemma live_app ws : live (ws ++ [WRange]) = S (live ws).
Proof. induction ws as [|[] ws IH]; simpl; lia. Qed.

Lemma live_insert_same ws w p p' :
  ws !! w = Some p → p ≠ WDone → p' ≠ WDone → live (<[w:=p']> ws) = live ws.
Proof.
  revert w. induction ws as [|q ws IH]; intros [|w]; simpl; try done.
  - intros [= ->] ? ?. by destruct p, p'.
  - intros ? ? ?. destruct q; simpl; erewrite IH; eauto.
Qed.

Lemma live_insert_done ws w p :
  ws !! w = Some p → p ≠ WDone → live ws = S (live (<[w:=WDone]> ws)).
Proof.
  revert w. induction ws as [|q ws IH]; intros [|w]; simpl; try done.
  - intros [= ->] ?. by destruct p.
  - intros ? ?. destruct q; simpl; erewrite IH; eauto.
Qed.

Lemma live_zero ws w p : live ws = 0 → ws !! w = Some p → p = WDone.
Proof.
  revert w. induction ws as [|q ws IH]; intros [|w]; simpl; try done.
  - intros ? [= ->]. by destruct p.
  - destruct q; try done; eauto.
Qed.

Lemma Core_start : Core start.
Proof. split; simpl; try done; try lia; try naive_solver. Qed.

Ltac chan_facts :=
  repeat match goal with
  | H : pop _ = Some _ |- _ => apply pop_some in H as (? & ? & ?)
  | H : pop _ = None |- _ => apply pop_none in H
  | H : close _ = Some _ |- _ => apply close_some in H as (? & ? & ? & ?)
  | H : close _ = None |- _ => apply close_none in H
  | H : try_enqueue _ _ = Some _ |- _ =>
      apply try_enqueue_some in H as (? & ? & ? & [(? & ? & ?)|(? & ? & ?)])
  | H : try_enqueue _ _ = None |- _ => apply try_enqueue_none in H
  | H : wg_done _ = Some _ |- _ => apply wg_done_some in H
  | H : wg_done _ = None |- _ => apply wg_done_none in H
  end.

Lemma live_pos ws w p : ws !! w = Some p → p ≠ WDone → 0 < live ws.
Proof.
  intros Hw Hp. destruct (live ws) eqn:E; [|lia].
  by destruct Hp; eapply live_zero.
Qed.

Ltac use_pcs :=
  repeat match goal with
  | E : orch _ = _ |- _ => rewrite E in *
  | E : updater _ = _ |- _ => rewrite E in *
  | E : closer _ = _ |- _ => rewrite E in *
  end.

Ltac worker_facts :=
  repeat match goal with
  | H : workers ?s !! ?w = Some WRange |- _ =>
      lazymatch goal with
      | _ : 0 < live (workers s) |- _ => fail
      | _ => pose proof (live_pos _ _ _ H ltac:(done))
      end
  | H : workers ?s !! ?w = Some (WSend ?r) |- _ =>
      lazymatch goal with
      | _ : 0 < live (workers s) |- _ => fail
      | _ => pose proof (live_pos _ _ _ H ltac:(done))
      end
  end.

(** A goal about the entries of the updated worker list. *)
Ltac lookup_goal :=
  let w0 := fresh "w0" in
  let Hw0 := fresh "Hw0" in
  intros w0 Hw0;
  first
    [ apply list_lookup_insert_Some in Hw0 as [(-> & ? & ?)|(? & Hw0)]
    | apply lookup_app_Some in Hw0 as [Hw0|(? & Hw0)];
      [|destruct (w0 - _); simpl in Hw0; simplify_eq] ].

Ltac brute s :=
  repeat match goal with
  | H : (_ <? _) = true |- _ => apply Nat.ltb_lt in H
  | H : (_ <? _) = false |- _ => apply Nat.ltb_ge in H
  end;
  unfold numProcessorWorkers in *;
  destruct (orch s) eqn:?; destruct (updater s) as [[]|] eqn:?;
  destruct (closer s) as [[]|] eqn:?;
  simpl in *; destruct_and?; simplify_eq;
  repeat split; intros; destruct_and?; destruct_or?; simplify_eq;
  eauto; try congruence; try lia;
  try match goal with H : _ ↔ _ |- _ => destruct H; intuition congruence end.

Lemma Core_step l s s' : Core s → exec l s = Some s' → Core s'.
Proof.
  intros HC H.
  step_cases H; chan_facts; simplify_eq.
  all: destruct HC as [C1 C2 C3 C4 C5 C6 C7 C8 C9 C10]; use_pcs; worker_facts.
  all: split; simpl in *; rewrite ?length_insert, ?length_app; simpl.
  all: try done.
  all: try (rewrite ?live_app; lia).
  all: try (intuition (try congruence; try lia); fail).
  all: try (lookup_goal; simplify_eq; eauto; fail).
  all: try (erewrite live_insert_same by (done || eauto); intuition (try congruence; try lia); fail).
  all: try (erewrite (live_insert_done (workers _)) in * by (done || eauto); intuition (try congruence; try lia); fail).
  all: try (intros w' Hw'; destruct (C8 _ Hw'); congruence).
  all: try (intros _; destruct C3 as (_ & [u Hu] & _); rewrite Hu in *;
            destruct u; [simpl in *; lia | done]).
  all: try (lookup_goal; simplify_eq;
            match goal with
            | Hw : workers _ !! _ = Some WDone |- _ => destruct (C8 _ Hw); congruence
            end).
  all: try (match goal with E : closed ?c = closed _ |- _ => rewrite E end; done).
  all: try (match goal with C : crashed ?s = false |- _ => brute s end; fail).
Qed.

Lemma reachable_Core s : reachable s → Core s.
Proof. induction 1; eauto using Core_start, Core_step. Qed.

(** *** The history invariant *)

Lemma reverse_split {A} (es h1 h2 : list A) (b : A) :
  reverse es = h1 ++ b :: h2 → es = reverse h2 ++ b :: reverse h1.
Proof.
  intros H. rewrite <- (reverse_involutive es), H.
  by rewrite reverse_app, reverse_cons, <- app_assoc.
Qed.

Lemma follows_before a b es : follows a b es → before a b (reverse es).
Proof.
  intros Hf h1 h2 H. apply reverse_split in H.
  apply Hf in H. by rewrite elem_of_reverse in H.
Qed.

Lemma quiet_exits w es : quiet w es → exits_for_good w (reverse es).
Proof.
  intros Hq h1 h2 H e He. apply reverse_split in H.
  eapply Hq; [done|]. by rewrite elem_of_reverse.
Qed.

Lemma follows_nil a b : follows a b [].
Proof. intros [|] ? ?; done. Qed.

Lemma follows_cons a b e es :
  follows a b es → (e = b → a ∈ es) → follows a b (e :: es).
Proof.
  intros Hf He [|x l1] l2; simpl; intros [= -> ->]; [by apply He|].
  by eapply Hf.
Qed.

Lemma quiet_nil w : quiet w [].
Proof. intros [|] ? ?; done. Qed.

Lemma quiet_cons w e es :
  quiet w es → (by_worker w e → EWorkerDone w ∉ es) → quiet w (e :: es).
Proof.
  intros Hq He [|x l1] l2; simpl; intros [= -> ->] e' He'.
  - by apply elem_of_nil in He'.
  - apply elem_of_cons in He' as [->|He'].
    + intros Hw. apply (He Hw). apply elem_of_app. right. left.
    + by eapply Hq.
Qed.

Lemma done_app (ws : list worker_pc) (w : nat) : (ws ++ [WRange]) !! w = Some WDone ↔ ws !! w = Some WDone.
Proof.
  split.
  - intros [H|[? H]]%lookup_app_Some; [done|].
    destruct (w - length ws); simpl in H; simplify_eq.
  - apply lookup_app_l_Some.
Qed.

Lemma done_insert_other (ws : list worker_pc) (w0 : nat) p p' (w : nat) :
  ws !! w0 = Some p → p ≠ WDone → p' ≠ WDone →
  <[w0:=p']> ws !! w = Some WDone ↔ ws !! w = Some WDone.
Proof.
  intros H0 Hp Hp'. destruct (decide (w0 = w)) as [<-|Hne].
  - rewrite list_lookup_insert_eq by by eapply lookup_lt_Some.
    rewrite H0. split; intros [= ?]; done.
  - by rewrite list_lookup_insert_ne.
Qed.

Lemma done_insert_done (ws : list worker_pc) (w0 : nat) p (w : nat) :
  ws !! w0 = Some p →
  <[w0:=WDone]> ws !! w = Some WDone ↔ w = w0 ∨ ws !! w = Some WDone.
Proof.
  intros H0. destruct (decide (w0 = w)) as [<-|Hne].
  - rewrite list_lookup_insert_eq by by eapply lookup_lt_Some. naive_solver.
  - rewrite list_lookup_insert_ne by done. naive_solver.
Qed.

Lemma Hist_start : Hist start.
Proof.
  split; simpl; try done; auto using follows_nil, quiet_nil.
  intros w. split; [done|]. by intros ?%elem_of_nil.
Qed.

Lemma Hist_step l s s' : Core s → Hist s → exec l s = Some s' → Hist s'.
Proof.
  intros HC HH H. pose proof (Core_step _ _ _ HC H) as HC'.
  step_cases H; chan_facts; simplify_eq.
  all: try (destruct HC'; done).
  all: clear HC'.
  all: destruct HC as [C1 C2 C3 C4 C5 C6 C7 C8 C9 C10];
       destruct HH as [E1 E2 E3 E4 E5 O1 O2 O3 O4 Q]; use_pcs.
  all: split; simpl in *.
  all: try done.
  all: try (intros; apply elem_of_cons; right; eauto; fail).
  all: try (intros; apply follows_cons; [eauto|]; intros [=]; fail).
  all: try (intros; apply quiet_cons; [eauto|]; simpl; done).
  all: try (intros; apply elem_of_cons; by left).
  all: try (intros w'; rewrite done_app; apply E2).
  all: try (intros w'; rewrite elem_of_cons, <- E2;
            split; [by right | by intros [[=]|?]]).
  all: try (intros w'; rewrite elem_of_cons;
            erewrite done_insert_other by done; rewrite E2;
            split; [by right | by intros [[=]|?]]).
  all: try (intros w'; rewrite elem_of_cons;
            erewrite done_insert_done by done; rewrite E2;
            split; intros [?|?]; [left; congruence | by right
                                 | left; by simplify_eq | by right]).
  all: try (intros w'; apply quiet_cons; [apply Q|]; simpl; intros ->;
            rewrite <- E2; congruence).
  all: try (intros; apply follows_cons; [auto|]; intros _; auto; fail).
  all: try (apply follows_cons; [done|]; intros _; apply E4;
            destruct C3 as (_ & [u Hu] & _); rewrite Hu in *;
            destruct u; simpl in *; [lia|done]).
  all: try (intros w' Hw'; apply follows_cons; [by apply O1|]; intros _;
            apply E2;
            assert (Hlen : length (workers s) = 3)
              by (destruct (orch s); destruct_and?; done);
            destruct (lookup_lt_is_Some_2 (workers s) w') as [p Hp];
            [unfold numProcessorWorkers in Hw'; lia|];
            rewrite Hp; f_equal; eapply live_zero; eauto).
Qed.

Lemma reachable_Hist s : reachable s → Hist s.
Proof.
  induction 1; eauto using Hist_start, Hist_step, reachable_Core.
Qed.

(** *** Conservation of items *)

Lemma held_app ws : held (ws ++ [WRange]) = held ws.
Proof. unfold held. rewrite omap_app. simpl. by rewrite app_nil_r. Qed.

Lemma held_insert_send (ws : list worker_pc) (w : nat) r :
  ws !! w = Some WRange → held (<[w:=WSend r]> ws) ≡ₚ DefinitionID r :: held ws.
Proof.
  revert w. induction ws as [|q ws IH]; intros [|w]; simpl; try done.
  - by intros [= ->].
  - intros H. unfold held in *. simpl. destruct q; simpl; rewrite IH by done;
      [done|apply Permutation_swap|done].
Qed.

Lemma held_insert_range (ws : list worker_pc) (w : nat) r :
  ws !! w = Some (WSend r) → held ws ≡ₚ DefinitionID r :: held (<[w:=WRange]> ws).
Proof.
  revert w. induction ws as [|q ws IH]; intros [|w]; simpl; try done.
  - by intros [= ->].
  - intros H. unfold held in *. simpl. destruct q; simpl; rewrite (IH w) by done;
      [done|apply Permutation_swap|done].
Qed.

Lemma held_insert_done (ws : list worker_pc) (w : nat) :
  ws !! w = Some WRange → held (<[w:=WDone]> ws) = held ws.
Proof.
  revert w. induction ws as [|q ws IH]; intros [|w]; simpl; try done.
  - by intros [= ->].
  - intros H. unfold held in *. simpl. by rewrite IH.
Qed.

Lemma held_live_zero ws : live ws = 0 → held ws = [].
Proof. induction ws as [|[] ws IH]; simpl; try done. Qed.

Lemma Cons_start : Cons start.
Proof. by split. Qed.

Lemma Cons_step l s s' : Cons s → exec l s = Some s' → Cons s'.
Proof.
  intros [K1 K2 K3] H.
  step_cases H; chan_facts; simplify_eq.
  all: split; unfold enqueued_ids, received_ids, sent_ids, sunk_ids;
       simpl in *; rewrite ?held_app; try done.
  all: fold (enqueued_ids (events s)) (received_ids (events s))
            (sent_ids (events s)) (sunk_ids (events s)).
  all: try (rewrite map_app; simpl; rewrite app_assoc, <- Permutation_cons_append;
            by (rewrite K1 || rewrite K3)).
  all: try (match goal with E : buf ?c = buf _ |- _ => by rewrite E end).
  all: try (match goal with E : buf _ = _ :: buf _ |- _ =>
              first [rewrite K1 | rewrite K3]; rewrite E; simpl;
              by rewrite Permutation_middle end).
  all: try (rewrite held_insert_send by done; simpl; rewrite K2;
            by rewrite Permutation_middle).
  all: try (by rewrite held_insert_done).
  all: try (rewrite K2; erewrite (held_insert_range (workers s)) by done;
            by rewrite Permutation_middle).
Qed.

Lemma reachable_Cons s : reachable s → Cons s.
Proof.
  induction 1; eauto using Cons_start, Cons_step.
Qed.

Lemma run_reachable ls s s' : reachable s → run ls s = Some s' → reachable s'.
Proof.
  revert s. induction ls as [|l ls IH]; simpl; intros s Hs.
  - by intros [= <-].
  - destruct (exec l s) as [s1|] eqn:E; simpl; [|done].
    apply IH. by eapply reach_step.
Qed.

Lemma omap_reverse {A B} (f : A → option B) (l : list A) :
  omap f (reverse l) ≡ₚ omap f l.
Proof.
  induction l as [|x l IH]; [done|].
  rewrite reverse_cons, omap_app. simpl.
  destruct (f x); simpl; rewrite ?app_nil_r, IH; [|done].
  by rewrite <- Permutation_cons_append.
Qed.

(** *** The claims about the pipeline *)

Lemma after_minute_run_reachable : reachable after_minute_run.
Proof.
  apply (run_reachable minute_run start); [apply reach_start|].
  by vm_compute.
Qed.

Lemma mid_fetch_reachable : reachable mid_fetch.
Proof.
  apply (run_reachable (spawn_all ++ [LTick 7 7 "3:04PM"; LOrch]) start);
    [apply reach_start|].
  by vm_compute.
Qed.

(** C1. The process never panics (no send on a closed channel); while
    resultsChan is closed processorsWg is zero and all three workers have
    returned; in the history, close(resultsChan) comes after the exit of
    each of the three workers, a worker does nothing after its exit, each
    exit comes after close(defsToProcessChan), the updater's exit after
    close(resultsChan), and the orchestrator's return after the updater's
    exit; an orchestrator that has returned has its return in the history. *)
Theorem shutdown_in_order s :
  reachable s →
  crashed s = false ∧
  (closed (resultsChan s) = true →
     processorsWg s = 0%nat ∧
     ∀ w, w < numProcessorWorkers → workers s !! w = Some WDone) ∧
  (∀ w, w < numProcessorWorkers →
     before (EWorkerDone w) ECloseResults (history s)) ∧
  (∀ w, exits_for_good w (history s)) ∧
  (∀ w, before ECloseDefs (EWorkerDone w) (history s)) ∧
  before ECloseResults EUpdaterDone (history s) ∧
  before EUpdaterDone EOrchReturn (history s) ∧
  (orch s = OReturned → EOrchReturn ∈ history s).
Proof.
  intros Hs. pose proof (reachable_Core _ Hs) as HC.
  pose proof (reachable_Hist _ Hs) as HH. unfold history.
  split; [apply HC|]. split.
  { intros Hcl. apply (core_results _ HC) in Hcl.
    assert (Hz : live (workers s) = 0) by (apply (core_closer _ HC); auto).
    split; [by rewrite (core_wg _ HC)|].
    intros w Hw. pose proof (core_phase _ HC) as Hp.
    assert (Hlen : length (workers s) = 3).
    { rewrite Hcl in Hp. destruct (orch s); destruct_and?; done. }
    destruct (lookup_lt_is_Some_2 (workers s) w) as [p Hp'];
      [unfold numProcessorWorkers in Hw; lia|].
    rewrite Hp'. f_equal. by eapply live_zero. }
  split; [intros w Hw; apply follows_before, HH, Hw|].
  split; [intros w; apply quiet_exits, HH|].
  split; [intros w; apply follows_before, HH|].
  split; [apply follows_before, HH|].
  split; [apply follows_before, HH|].
  intros Hr. rewrite elem_of_reverse. by apply HH.
Qed.

Lemma shutdown_in_order_witness :
  crashed after_minute_run = false ∧
  (closed (resultsChan after_minute_run) = true →
     processorsWg after_minute_run = 0%nat ∧
     ∀ w, w < numProcessorWorkers → workers after_minute_run !! w = Some WDone) ∧
  (∀ w, w < numProcessorWorkers →
     before (EWorkerDone w) ECloseResults (history after_minute_run)) ∧
  (∀ w, exits_for_good w (history after_minute_run)) ∧
  (∀ w, before ECloseDefs (EWorkerDone w) (history after_minute_run)) ∧
  before ECloseResults EUpdaterDone (history after_minute_run) ∧
  before EUpdaterDone EOrchReturn (history after_minute_run) ∧
  (orch after_minute_run = OReturned → EOrchReturn ∈ history after_minute_run).
Proof. apply (shutdown_in_order after_minute_run), after_minute_run_reachable. Defined.

(** C2, counterexample. Ticks at seconds 7, 22, 37, 52 and 7 of the next
    minute enqueue ten items; the first and the last two carry the same
    identifiers 701 and 702, and so do the results the updater receives. *)
Lemma sink_gets_distinct_results_fails : ¬ sink_gets_distinct_results.
Proof.
  intros H. destruct (H after_minute_run after_minute_run_reachable) as [_ Hnd];
    [by vm_compute|].
  assert (Hs : sunk_ids (history after_minute_run) =
               [701; 702; 2201; 2202; 3701; 3702; 5201; 5202; 701; 702]%Z)
    by by vm_compute.
  rewrite Hs in Hnd. apply NoDup_cons in Hnd as [Hnot _].
  apply Hnot. repeat (apply elem_of_cons; first [by left | right]).
Qed.

(** C2, amended. Once the orchestrator has returned, the identifiers of
    the items the workers received, of the results they sent and of the
    results the updater received are each, counted with repetitions, the
    identifiers of the items enqueued: nothing enqueued is lost and
    nothing is processed twice. *)
Theorem no_loss_no_duplication s :
  reachable s → orch s = OReturned →
  received_ids (history s) ≡ₚ enqueued_ids (history s) ∧
  sent_ids (history s) ≡ₚ enqueued_ids (history s) ∧
  sunk_ids (history s) ≡ₚ enqueued_ids (history s).
Proof.
  intros Hs Hr. pose proof (reachable_Core _ Hs) as HC.
  destruct (reachable_Cons _ Hs) as [K1 K2 K3].
  pose proof (core_returned _ HC Hr) as Hu.
  destruct (core_updater _ HC Hu) as [Hcl Hbuf].
  apply (core_results _ HC) in Hcl.
  assert (Hz : live (workers s) = 0) by (apply (core_closer _ HC); auto).
  pose proof (core_phase _ HC) as Hp. rewrite Hr in Hp. destruct Hp as (Hlen & _).
  destruct (lookup_lt_is_Some_2 (workers s) 0) as [p Hp]; [lia|].
  assert (p = WDone) as -> by by eapply live_zero.
  destruct (core_drained _ HC _ Hp) as [_ Hdefs].
  rewrite Hdefs in K1. rewrite (held_live_zero _ Hz) in K2. rewrite Hbuf in K3.
  simpl in *. rewrite app_nil_r in *.
  unfold history, enqueued_ids, received_ids, sent_ids, sunk_ids.
  rewrite !omap_reverse.
  fold (enqueued_ids (events s)) (received_ids (events s))
       (sent_ids (events s)) (sunk_ids (events s)).
  split; [done|]. split; [by rewrite <- K2|]. by rewrite <- K3, <- K2.
Qed.

Lemma no_loss_no_duplication_witness :
  received_ids (history after_minute_run) ≡ₚ enqueued_ids (history after_minute_run) ∧
  sent_ids (history after_minute_run) ≡ₚ enqueued_ids (history after_minute_run) ∧
  sunk_ids (history after_minute_run) ≡ₚ enqueued_ids (history after_minute_run).
Proof.
  apply (no_loss_no_duplication after_minute_run);
    [apply after_minute_run_reachable | vm_compute; reflexivity].
Defined.







End PipelineProofs.

(** ** The registry: further properties *)

Module BroadcasterExtras.
Import Chan ChanFacts Broadcaster BroadcasterProofs.

(** A registered client of a reachable state, with its object. *)
Lemma registered_object b id l :
  Inv b → clients b !! id = Some l →
  ∃ ci, heap b !! l = Some ci ∧ is_open ci ∧ obj_ok ci.
Proof.
  intros HI Hid. destruct (inv_reg _ HI _ _ Hid) as (ci & Hl & Ho).
  exists ci. eauto using inv_obj.
Qed.

(** Broadcast to a registered client whose flag is clear and whose event
    channel has room. *)
Lemma Broadcast_delivers b id l ci ev :
  reachable b →
  clients b !! id = Some l → heap b !! l = Some ci → isCancelled ci = false →
  length (buf (sseChannel ci)) < 32 →
  Broadcast id ev b =
    Ret (set_heap b l {| sseChannel := push (sseChannel ci) ev;
                         cancelChannel := cancelChannel ci;
                         isCancelled := false |}) None.
Proof.
  intros Hb Hid Hl Hc Hlen. apply reachable_Inv in Hb as HI.
  destruct (registered_object _ _ _ HI Hid) as (ci' & Hl' & [Hopen _] & [Hcap _ _ _ _]).
  assert (ci' = ci) as -> by congruence.
  unfold Broadcast, Broadcast_send, try_send, full.
  rewrite Hid, Hl, Hc, Hopen, Hcap.
  destruct (32 <=? length (buf (sseChannel ci))) eqn:E; [apply Nat.leb_le in E; lia|].
  done.
Qed.

Lemma drain_sse_all b l ci :
  heap b !! l = Some ci →
  ∀ n, length (buf (sseChannel ci)) ≤ n →
  (drain_sse n l b).1 = buf (sseChannel ci) ∧
  queued (drain_sse n l b).2 l = Some [].
Proof.
  intros Hl n. revert b ci Hl.
  induction n as [|n IH]; intros b ci Hl Hn.
  - destruct (buf (sseChannel ci)) eqn:E; simpl in *; [|lia].
    unfold queued. rewrite Hl. simpl. by rewrite E.
  - simpl. unfold recv_sse. rewrite Hl. simpl. unfold pop.
    destruct (buf (sseChannel ci)) as [|x q] eqn:E; simpl.
    + unfold queued. rewrite Hl. simpl. by rewrite E.
    + edestruct (IH (set_heap b l
                       {| sseChannel := Make q (cap (sseChannel ci)) (closed (sseChannel ci));
                          cancelChannel := cancelChannel ci;
                          isCancelled := isCancelled ci |})) as [H1 H2].
      { simpl. apply lookup_insert_eq. }
      { simpl in *. lia. }
      destruct (drain_sse n l _) as [xs b'']. simpl in *. by rewrite H1.
Qed.

(** X1. Broadcast of [NewSSEEvent data] to a registered client whose flag
    is clear and whose event channel has room returns nil, and a consumer
    that then reads the channel gets the events queued before, in order,
    followed by that event with its data unchanged. *)
Theorem Broadcast_round_trip b id l ci data :
  reachable b →
  clients b !! id = Some l → heap b !! l = Some ci → isCancelled ci = false →
  length (buf (sseChannel ci)) < 32 →
  ∃ b',
    Broadcast id (NewSSEEvent data) b = Ret b' None ∧
    (drain_sse (S (length (buf (sseChannel ci)))) l b').1 =
      buf (sseChannel ci) ++ [{| Data := data |}].
Proof.
  intros Hb Hid Hl Hc Hlen. eexists. split; [by apply Broadcast_delivers|].
  set (ci' := {| sseChannel := push (sseChannel ci) (NewSSEEvent data);
                 cancelChannel := cancelChannel ci; isCancelled := false |}).
  assert (Hl' : heap (set_heap b l ci') !! l = Some ci')
    by (simpl; apply lookup_insert_eq).
  destruct (drain_sse_all _ _ _ Hl' (S (length (buf (sseChannel ci))))) as [H _].
  { simpl. rewrite length_app. simpl. lia. }
  exact H.
Qed.

Lemma Broadcast_round_trip_witness :
  ∃ b',
    Broadcast "a" (NewSSEEvent "hello") one_client = Ret b' None ∧
    (drain_sse 1 0 b').1 = [] ++ [{| Data := "hello" |}].
Proof.
  apply (Broadcast_round_trip one_client "a" 0
           {| sseChannel := make 32; cancelChannel := make 1; isCancelled := false |});
    [apply one_client_reachable | reflexivity | reflexivity | reflexivity | simpl; lia].
Defined.

(** X7. In every state the program reaches, a call of Broadcast, of
    CancelImport or of RemoveClient that runs without another goroutine in
    between returns: it does not panic. *)
Theorem whole_calls_return b id ev :
  reachable b →
  (∃ b' e, Broadcast id ev b = Ret b' e) ∧
  (∃ b' e, CancelImport id b = Ret b' e) ∧
  (∃ b', RemoveClient id b = Ret b' tt).
Proof.
  intros Hb. apply reachable_Inv in Hb as HI.
  destruct (clients b !! id) as [l|] eqn:Hid.
  - destruct (registered_object _ _ _ HI Hid) as (ci & Hl & [Ho1 Ho2] & Hok).
    split; [|split].
    + unfold Broadcast, Broadcast_send, try_send. rewrite Hid, Hl, Ho1.
      destruct (isCancelled ci); [by eauto|].
      destruct (full (sseChannel ci)); by eauto.
    + destruct (isCancelled ci) eqn:Hc.
      * exists b. eexists. eapply CancelImport_cancelled; [done|].
        unfold cancelled_at. by rewrite Hl; simpl; rewrite Hc.
      * do 2 eexists. by eapply CancelImport_first.
    + destruct (RemoveClient_registered _ _ _ HI Hid) as (? & _ & ->). by eauto.
  - unfold Broadcast, CancelImport, RemoveClient. rewrite Hid. by eauto 10.
Qed.

Lemma whole_calls_return_witness :
  (∃ b' e, Broadcast "a" hello saturated = Ret b' e) ∧
  (∃ b' e, CancelImport "a" saturated = Ret b' e) ∧
  (∃ b', RemoveClient "a" saturated = Ret b' tt).
Proof. apply (whole_calls_return saturated "a" hello), saturated_reachable. Defined.

(** X8. Every client object keeps an event channel of capacity 32 with at
    most 32 events queued and a cancel channel of capacity 1 with at most
    one signal queued, and a signal is queued only when the flag is set. *)
Theorem queues_bounded b l ci :
  reachable b → heap b !! l = Some ci →
  cap (sseChannel ci) = 32 ∧ length (buf (sseChannel ci)) ≤ 32 ∧
  cap (cancelChannel ci) = 1 ∧ length (buf (cancelChannel ci)) ≤ 1 ∧
  (buf (cancelChannel ci) ≠ [] → isCancelled ci = true).
Proof.
  intros Hb Hl. apply reachable_Inv in Hb as HI.
  destruct (inv_obj _ HI _ _ Hl) as [H1 H2 H3 H4 H5].
  repeat split; try done.
  intros Hne. destruct (isCancelled ci); [done|]. by destruct Hne; apply H5.
Qed.

Lemma queues_bounded_witness :
  cap (Make (replicate 32 hello) 32 false) = 32 ∧
  length (replicate 32 hello) ≤ 32 ∧
  cap (@make bool 1) = 1 ∧ length (buf (@make bool 1)) ≤ 1 ∧
  (buf (@make bool 1) ≠ [] → false = true).
Proof.
  apply (queues_bounded saturated 0
           {| sseChannel := Make (replicate 32 hello) 32 false;
              cancelChannel := make 1; isCancelled := false |});
    [apply saturated_reachable | vm_compute; reflexivity].
Defined.

(** Once the flag is set and the cancel channel is empty, it stays empty. *)
Lemma exec_keeps_silent l a b b' :
  Inv b → exec a b = Some b' →
  cancelled_at b l = Some true → signals b l = Some [] → signals b' l = Some [].
Proof.
  intros HI He Hc Hs.
  assert (Hset : ∀ l0 ci0 ci',
    heap b !! l0 = Some ci0 →
    (l0 = l → buf (cancelChannel ci') = buf (cancelChannel ci0)) →
    signals (set_heap b l0 ci') l = Some []).
  { intros l0 ci0 ci' H0 Hsame. unfold signals in *. simpl.
    destruct (decide (l0 = l)) as [->|Hne].
    - rewrite lookup_insert_eq. simpl. rewrite Hsame by done.
      rewrite H0 in Hs. by simpl in Hs.
    - by rewrite lookup_insert_ne. }
  assert (Hsend : ∀ id l0 ev,
    signals (state_of (Broadcast_send id l0 ev b)) l = Some []).
  { intros id l0 ev. unfold Broadcast_send.
    destruct (heap b !! l0) as [ci|] eqn:H0; [|done].
    destruct (try_send _ _); simpl; try done. by eapply Hset. }
  assert (Hlocked : ∀ id l0,
    signals (state_of (CancelImport_locked id l0 b)) l = Some []).
  { intros id l0. unfold CancelImport_locked.
    destruct (heap b !! l0) as [ci|] eqn:H0; [|done].
    destruct (isCancelled ci) eqn:Hf; [done|].
    assert (l0 ≠ l).
    { intros ->. unfold cancelled_at in Hc. rewrite H0 in Hc. simpl in Hc. congruence. }
    destruct (try_send _ _); simpl; by eapply Hset. }
  destruct a; simpl in He.
  - injection He as <-. unfold signals in *. simpl.
    rewrite lookup_insert_ne; [done|]. intros <-.
    destruct (heap b !! next b) as [ci|] eqn:E; [|done].
    assert (next b < next b) by (apply (inv_bound _ HI); eauto). lia.
  - injection He as <-. unfold Broadcast.
    destruct (clients b !! clientID); [|done].
    destruct (heap b !! l0) as [ci|]; [|done].
    destruct (isCancelled ci); [done|]. apply Hsend.
  - injection He as <-. unfold CancelImport.
    destruct (clients b !! clientID); [|done]. apply Hlocked.
  - injection He as <-.
    destruct (clients b !! clientID) as [l0|] eqn:Hid.
    + destruct (RemoveClient_registered _ _ _ HI Hid) as (ci & Hl0 & ->). simpl.
      by apply (Hset l0 ci).
    + unfold RemoveClient. by rewrite Hid.
  - injection He as <-. apply Hsend.
  - injection He as <-. apply Hlocked.
  - destruct (recv_sse l0 b) as [[x b0]|] eqn:E; simpl in He; [|done].
    injection He as <-. unfold recv_sse in E.
    destruct (heap b !! l0) as [ci|] eqn:H0; simpl in E; [|done].
    destruct (pop (sseChannel ci)) as [[y c]|]; simpl in E; [|done].
    injection E as <- <-. by eapply Hset.
  - destruct (recv_cancel l0 b) as [[x b0]|] eqn:E; simpl in He; [|done].
    injection He as <-. unfold recv_cancel in E.
    destruct (heap b !! l0) as [ci|] eqn:H0; simpl in E; [|done].
    destruct (pop (cancelChannel ci)) as [[y c]|] eqn:Hp; simpl in E; [|done].
    injection E as <- <-. apply pop_some in Hp as (Hb & _).
    eapply Hset; [done|]. intros ->.
    unfold signals in Hs. rewrite H0 in Hs. simpl in Hs. congruence.
Qed.

Lemma run_keeps_silent l acts b b' :
  Inv b → run acts b = Some b' →
  cancelled_at b l = Some true → signals b l = Some [] → signals b' l = Some [].
Proof.
  revert b. induction acts as [|a acts IH]; simpl; intros b HI Hr Hc Hs.
  - by injection Hr as <-.
  - destruct (exec a b) as [b1|] eqn:E; simpl in Hr; [|done].
    eapply (IH b1); eauto using Inv_exec, exec_keeps_cancelled, exec_keeps_silent.
Qed.

(** X2. The first CancelImport on a registered client leaves its queued
    events alone and puts one [true] on the cancel channel; once the
    consumer has taken it, nothing that runs afterwards puts a value on that
    cancel channel again. *)
Theorem cancel_signal_fires_once b id l ci :
  reachable b →
  clients b !! id = Some l → heap b !! l = Some ci → isCancelled ci = false →
  ∃ b1 b2,
    CancelImport id b = Ret b1 None ∧
    queued b1 l = queued b l ∧
    recv_cancel l b1 = Some (true, b2) ∧
    ∀ acts b3, run acts b2 = Some b3 → signals b3 l = Some [].
Proof.
  intros Hb Hid Hl Hc. apply reachable_Inv in Hb as HI.
  destruct (inv_obj _ HI _ _ Hl) as [_ _ _ _ Hunf]. specialize (Hunf Hc).
  pose proof (Inv_CancelImport id _ HI) as HI1.
  rewrite (CancelImport_first _ _ _ _ HI Hid Hl Hc) in HI1. simpl in HI1.
  do 2 eexists. split; [by eapply CancelImport_first|].
  split; [unfold queued; simpl; by rewrite lookup_insert_eq, Hl|].
  split.
  { unfold recv_cancel, pop. simpl. rewrite lookup_insert_eq. simpl.
    rewrite Hunf. simpl. reflexivity. }
  intros acts b3 Hrun. eapply run_keeps_silent; [| done | |].
  - eapply (Inv_recv_cancel l); [exact HI1|].
    unfold recv_cancel, pop. simpl. rewrite lookup_insert_eq. simpl.
    rewrite Hunf. simpl. reflexivity.
  - unfold cancelled_at. simpl. by rewrite lookup_insert_eq.
  - unfold signals. simpl. by rewrite lookup_insert_eq.
Qed.

Lemma cancel_signal_fires_once_witness :
  ∃ b1 b2,
    CancelImport "a" one_client = Ret b1 None ∧
    queued b1 0 = queued one_client 0 ∧
    recv_cancel 0 b1 = Some (true, b2) ∧
    ∀ acts b3, run acts b2 = Some b3 → signals b3 0 = Some [].
Proof.
  apply (cancel_signal_fires_once one_client "a" 0
           {| sseChannel := make 32; cancelChannel := make 1; isCancelled := false |});
    [apply one_client_reachable | reflexivity | reflexivity | reflexivity].
Defined.




(** A registration stays as long as the ID is neither removed nor drawn again. *)
Lemma exec_keeps_registered id l a b b' :
  Inv b → exec a b = Some b' → a ≠ ANewClient id → a ≠ ARemoveClient id →
  clients b !! id = Some l → clients b' !! id = Some l.
Proof.
  intros HI He Hn Hr Hid. destruct a; simpl in He.
  - injection He as <-. simpl. rewrite lookup_insert_ne; [done|]. congruence.
  - injection He as <-. by rewrite clients_Broadcast.
  - injection He as <-. by rewrite clients_CancelImport.
  - injection He as <-.
    destruct (clients b !! clientID) as [l0|] eqn:Hc.
    + destruct (RemoveClient_registered _ _ _ HI Hc) as (ci & _ & ->). simpl.
      rewrite lookup_delete_ne; [done|]. congruence.
    + unfold RemoveClient. by rewrite Hc.
  - injection He as <-. by rewrite clients_Broadcast_send.
  - injection He as <-. by rewrite clients_CancelImport_locked.
  - destruct (recv_sse l0 b) as [[x b0]|] eqn:E; simpl in He; [|done].
    injection He as <-. unfold recv_sse in E.
    destruct (heap b !! l0) as [ci|]; simpl in E; [|done].
    destruct (pop (sseChannel ci)) as [[y c]|]; simpl in E; [|done].
    by injection E as <- <-.
  - destruct (recv_cancel l0 b) as [[x b0]|] eqn:E; simpl in He; [|done].
    injection He as <-. unfold recv_cancel in E.
    destruct (heap b !! l0) as [ci|]; simpl in E; [|done].
    destruct (pop (cancelChannel ci)) as [[y c]|]; simpl in E; [|done].
    by injection E as <- <-.
Qed.

Lemma run_keeps_registered id l acts b b' :
  Inv b → run acts b = Some b' → ANewClient id ∉ acts → ARemoveClient id ∉ acts →
  clients b !! id = Some l → clients b' !! id = Some l ∧ Inv b'.
Proof.
  revert b. induction acts as [|a acts IH]; simpl; intros b HI Hr Hn Hrm Hid.
  - by injection Hr as <-.
  - destruct (exec a b) as [b1|] eqn:E; simpl in Hr; [|done].
    apply not_elem_of_cons in Hn as [? ?]. apply not_elem_of_cons in Hrm as [? ?].
    eapply (IH b1); eauto using Inv_exec, exec_keeps_registered.
Qed.

(** X4. As long as a client is not removed and uuid does not draw its ID
    again, GetClientSSEChannel returns the object NewClient handed out, and
    both its channels are open. *)
Theorem GetClientSSEChannel_stable b id acts b1 :
  reachable b →
  run acts (NewClient id b).1 = Some b1 →
  ANewClient id ∉ acts → ARemoveClient id ∉ acts →
  ∃ ci,
    GetClientSSEChannel id b1 = Some (NewClient id b).2.2 ∧
    heap b1 !! (NewClient id b).2.2 = Some ci ∧
    closed (sseChannel ci) = false ∧ closed (cancelChannel ci) = false.
Proof.
  intros Hb Hrun Hn Hr. apply reachable_Inv in Hb as HI.
  destruct (run_keeps_registered id (next b) acts (NewClient id b).1 b1)
    as [Hid HI1]; try done.
  { by apply Inv_NewClient. }
  { simpl. apply lookup_insert_eq. }
  destruct (inv_reg _ HI1 _ _ Hid) as (ci & Hl & Ho1 & Ho2).
  exists ci. by repeat split.
Qed.

Lemma GetClientSSEChannel_stable_witness :
  ∃ ci,
    GetClientSSEChannel "a" one_cancelled = Some (NewClient "a" NewBroadcaster).2.2 ∧
    heap one_cancelled !! (NewClient "a" NewBroadcaster).2.2 = Some ci ∧
    closed (sseChannel ci) = false ∧ closed (cancelChannel ci) = false.
Proof.
  apply (GetClientSSEChannel_stable NewBroadcaster "a" [ACancelImport "a"] one_cancelled);
    [apply reach_new | reflexivity | |].
  - intros H. apply elem_of_cons in H as [H|H]; [discriminate H|].
    by apply elem_of_nil in H.
  - intros H. apply elem_of_cons in H as [H|H]; [discriminate H|].
    by apply elem_of_nil in H.
Defined.

(** X5. RemoveClient on a registered client closes its two channels,
    keeping what is queued in them and the flag, deletes the entry, and
    leaves every other entry and every other object as it was; no
    remaining entry points to the closed object. *)
Theorem RemoveClient_closes b id l ci :
  reachable b → clients b !! id = Some l → heap b !! l = Some ci →
  ∃ b',
    RemoveClient id b = Ret b' tt ∧
    heap b' !! l =
      Some {| sseChannel := Make (buf (sseChannel ci)) 32 true;
              cancelChannel := Make (buf (cancelChannel ci)) 1 true;
              isCancelled := isCancelled ci |} ∧
    GetClientSSEChannel id b' = None ∧
    (∀ id', id' ≠ id → clients b' !! id' = clients b !! id') ∧
    (∀ l', l' ≠ l → heap b' !! l' = heap b !! l') ∧
    (∀ id' l', clients b' !! id' = Some l' → l' ≠ l).
Proof.
  intros Hb Hid Hl. apply reachable_Inv in Hb as HI.
  destruct (RemoveClient_registered _ _ _ HI Hid) as (ci' & Hl' & Heq).
  assert (ci' = ci) as -> by congruence.
  destruct (inv_obj _ HI _ _ Hl) as [Hc1 Hc2 _ _ _].
  eexists. split; [exact Heq|]. simpl. rewrite Hc1, Hc2.
  split; [apply lookup_insert_eq|].
  split; [apply lookup_delete_eq|].
  split; [intros; by apply lookup_delete_ne|].
  split; [intros; by apply lookup_insert_ne|].
  intros id' l' Hid' ->.
  destruct (decide (id = id')) as [->|Hne].
  - by rewrite lookup_delete_eq in Hid'.
  - rewrite lookup_delete_ne in Hid' by done. apply Hne. by eapply (inv_inj _ HI).
Qed.

Lemma RemoveClient_closes_witness :
  ∃ b',
    RemoveClient "a" one_cancelled = Ret b' tt ∧
    heap b' !! 0 =
      Some {| sseChannel := Make [] 32 true;
              cancelChannel := Make [true] 1 true;
              isCancelled := true |} ∧
    GetClientSSEChannel "a" b' = None ∧
    (∀ id', id' ≠ "a" → clients b' !! id' = clients one_cancelled !! id') ∧
    (∀ l', l' ≠ 0 → heap b' !! l' = heap one_cancelled !! l') ∧
    (∀ id' l', clients b' !! id' = Some l' → l' ≠ 0).
Proof.
  apply (RemoveClient_closes one_cancelled "a" 0
           {| sseChannel := make 32; cancelChannel := Make [true] 1 false;
              isCancelled := true |});
    [apply one_cancelled_reachable | reflexivity | reflexivity].
Defined.

(** X6. The select of a Broadcast that found its client before RemoveClient
    and sends after it panics (send on a closed channel) instead of taking
    the default branch; so does the locked section of such a CancelImport
    on a client whose flag was clear, after setting the flag. *)
Theorem send_after_removal_panics b id l ev :
  reachable b → clients b !! id = Some l →
  ∃ b1,
    RemoveClient id b = Ret b1 tt ∧
    Broadcast_send id l ev b1 = Panic b1 ∧
    (cancelled_at b l = Some false →
       ∃ b2, CancelImport_locked id l b1 = Panic b2 ∧ cancelled_at b2 l = Some true).
Proof.
  intros Hb Hid. apply reachable_Inv in Hb as HI.
  destruct (RemoveClient_registered _ _ _ HI Hid) as (ci & Hl & Heq).
  eexists. split; [exact Heq|]. split.
  - unfold Broadcast_send. simpl. by rewrite lookup_insert_eq.
  - unfold cancelled_at. rewrite Hl. simpl. intros [= Hc].
    unfold CancelImport_locked. simpl. rewrite lookup_insert_eq. simpl. rewrite Hc.
    eexists. split; [reflexivity|]. simpl. by rewrite lookup_insert_eq.
Qed.

Lemma send_after_removal_panics_witness :
  ∃ b1,
    RemoveClient "a" one_client = Ret b1 tt ∧
    Broadcast_send "a" 0 hello b1 = Panic b1 ∧
    (cancelled_at one_client 0 = Some false →
       ∃ b2, CancelImport_locked "a" 0 b1 = Panic b2 ∧ cancelled_at b2 0 = Some true).
Proof.
  apply (send_after_removal_panics one_client "a" 0 hello);
    [apply one_client_reachable | reflexivity].
Defined.

(** X9. NewClient returns the ID it was given and an object that was not
    in use before, with a clear flag and two open, empty channels, and
    registers the ID to it; other IDs and all earlier objects are untouched. *)
Theorem NewClient_fresh b id :
  reachable b →
  (NewClient id b).2.1 = id ∧
  heap b !! (NewClient id b).2.2 = None ∧
  heap (NewClient id b).1 !! (NewClient id b).2.2 =
    Some {| sseChannel := make 32; cancelChannel := make 1; isCancelled := false |} ∧
  clients (NewClient id b).1 !! id = Some (NewClient id b).2.2 ∧
  (∀ id', id' ≠ id → clients (NewClient id b).1 !! id' = clients b !! id') ∧
  (∀ l ci, heap b !! l = Some ci → heap (NewClient id b).1 !! l = Some ci).
Proof.
  intros Hb. apply reachable_Inv in Hb as HI. simpl.
  assert (Hfresh : heap b !! next b = None).
  { destruct (heap b !! next b) as [ci|] eqn:E; [|done].
    assert (next b < next b) by (apply (inv_bound _ HI); eauto). lia. }
  split; [done|]. split; [done|].
  split; [apply lookup_insert_eq|]. split; [apply lookup_insert_eq|].
  split; [intros; by apply lookup_insert_ne|].
  intros l ci Hl. rewrite lookup_insert_ne; [done|]. congruence.
Qed.

Lemma NewClient_fresh_witness :
  (NewClient "b" one_client).2.1 = "b" ∧
  heap one_client !! (NewClient "b" one_client).2.2 = None ∧
  heap (NewClient "b" one_client).1 !! (NewClient "b" one_client).2.2 =
    Some {| sseChannel := make 32; cancelChannel := make 1; isCancelled := false |} ∧
  clients (NewClient "b" one_client).1 !! "b" = Some (NewClient "b" one_client).2.2 ∧
  (∀ id', id' ≠ "b" → clients (NewClient "b" one_client).1 !! id' = clients one_client !! id') ∧
  (∀ l ci, heap one_client !! l = Some ci → heap (NewClient "b" one_client).1 !! l = Some ci).
Proof. apply (NewClient_fresh one_client "b"), one_client_reachable. Defined.

End BroadcasterExtras.

(** ** The pipeline: further properties *)

Module PipelineExtras.
Import Chan ChanFacts Pipeline PipelineProofs.

Lemma full_false {A} (c : chan A) : full c = false → length (buf c) < cap c.
Proof. unfold full. intros H. by apply Nat.leb_gt in H. Qed.

Lemma Bounds_start : Bounds start.
Proof. split; simpl; try done; lia. Qed.

Lemma Bounds_step l s s' : Core s → Bounds s → exec l s = Some s' → Bounds s'.
Proof.
  intros HC HB H. pose proof (Core_step _ _ _ HC H) as HC'.
  unfold exec in H. destruct (crashed s) eqn:?; [done|].
  destruct l; unfold orch_step, tick_step, stop_step, close_stop_step, worker_step,
    updater_step, closer_step in H;
    repeat case_match; simplify_eq.
  all: try (destruct HC'; done).
  all: repeat match goal with
    | H : pop _ = Some _ |- _ => apply pop_some in H as (? & ? & ?)
    | H : close _ = Some _ |- _ => apply close_some in H as (? & ? & ? & ?)
    | H : try_enqueue _ _ = Some _ |- _ =>
        apply try_enqueue_some in H as (? & ? & ? & [(? & ? & ?)|(? & ? & ?)])
    | H : full _ = false |- _ => apply full_false in H
    end; simplify_eq.
  all: destruct HB as [B1 B2 B3 B4 B5]; split; simpl in *;
       rewrite ?length_app; simpl; try congruence; try lia.
  all: try (intros; done).
  all: try (match goal with E : orch _ = _ |- _ => rewrite E in B5 end; simpl in B5;
            auto).
  all: try assumption.
  all: match goal with E : buf _ = _ :: buf _ |- _ => rewrite E in *; simpl in *; lia end.
Qed.

Lemma reachable_Bounds s : reachable s → Bounds s.
Proof.
  induction 1; eauto using Bounds_start, Bounds_step, reachable_Core.
Qed.

(** X10. Neither channel ever holds more than 10 values; there are never
    more than 3 workers; processorsWg is the number of workers that have
    not returned, at most 3; mainWg is at most 1. *)
Theorem resources_bounded s :
  reachable s →
  length (buf (defsToProcessChan s)) ≤ 10 ∧
  length (buf (resultsChan s)) ≤ 10 ∧
  length (workers s) ≤ numProcessorWorkers ∧
  processorsWg s = live (workers s) ∧ processorsWg s ≤ numProcessorWorkers ∧
  mainWg s ≤ 1.
Proof.
  intros Hs. pose proof (reachable_Core _ Hs) as HC.
  destruct (reachable_Bounds _ Hs) as [_ _ B3 B4 _].
  assert (Hlen : length (workers s) ≤ 3).
  { pose proof (core_phase _ HC) as Hp. destruct (orch s); destruct_and?; lia. }
  assert (Hlive : ∀ ws, live ws ≤ length ws).
  { induction ws as [|[] ws IH]; simpl; lia. }
  repeat split; try done.
  - apply HC.
  - rewrite (core_wg _ HC). specialize (Hlive (workers s)).
    unfold numProcessorWorkers. lia.
  - rewrite (core_main _ HC). destruct (updater s) as [[]|]; lia.
Qed.

Lemma resources_bounded_witness :
  length (buf (defsToProcessChan mid_fetch)) ≤ 10 ∧
  length (buf (resultsChan mid_fetch)) ≤ 10 ∧
  length (workers mid_fetch) ≤ numProcessorWorkers ∧
  processorsWg mid_fetch = live (workers mid_fetch) ∧
  processorsWg mid_fetch ≤ numProcessorWorkers ∧
  mainWg mid_fetch ≤ 1.
Proof. apply (resources_bounded mid_fetch), mid_fetch_reachable. Defined.

(** X16. Once the orchestrator has returned no goroutine can take a step:
    both wait groups are at zero, both channels are closed and empty, the
    three workers, the updater and the closer have finished. *)
Theorem returned_is_quiescent s :
  reachable s → orch s = OReturned →
  (∀ l, exec l s = None) ∧
  processorsWg s = 0 ∧ mainWg s = 0 ∧
  drained (defsToProcessChan s) = true ∧ drained (resultsChan s) = true ∧
  workers s = [WDone; WDone; WDone] ∧
  updater s = Some UDone ∧ closer s = Some CDone.
Proof.
  intros Hs Hr. pose proof (reachable_Core _ Hs) as HC.
  destruct (reachable_Bounds _ Hs) as [_ _ _ _ Bstop].
  pose proof (core_returned _ HC Hr) as Hu.
  destruct (core_updater _ HC Hu) as [Hcl Hbuf].
  pose proof Hcl as Hcd. apply (core_results _ HC) in Hcd.
  assert (Hz : live (workers s) = 0) by (apply (core_closer _ HC); auto).
  pose proof (core_phase _ HC) as Hp. rewrite Hr in Hp. destruct Hp as (Hlen & _).
  assert (Hws : workers s = [WDone; WDone; WDone]).
  { destruct (workers s) as [|p0 [|p1 [|p2 [|]]]]; simpl in Hlen; try lia.
    destruct p0, p1, p2; simpl in Hz; try lia. done. }
  destruct (core_drained _ HC 0) as [Hdc Hdb]; [by rewrite Hws|].
  split; [|repeat split; try done].
  - intros l. unfold exec. rewrite (core_alive _ HC).
    destruct l; simpl.
    + unfold orch_step. by rewrite Hr.
    + unfold tick_step. by rewrite Hr.
    + unfold stop_step. by rewrite Hr.
    + unfold close_stop_step. rewrite Bstop; [done|]. by rewrite Hr.
    + unfold worker_step. rewrite Hws. by destruct w as [|[|[|]]].
    + unfold updater_step. by rewrite Hu.
    + unfold closer_step. by rewrite Hcd.
  - by rewrite (core_wg _ HC).
  - rewrite (core_main _ HC). by rewrite Hu.
  - unfold drained. by rewrite Hdc, Hdb.
  - unfold drained. by rewrite Hcl, Hbuf.
Qed.

Lemma returned_is_quiescent_witness :
  (∀ l, exec l after_minute_run = None) ∧
  processorsWg after_minute_run = 0 ∧ mainWg after_minute_run = 0 ∧
  drained (defsToProcessChan after_minute_run) = true ∧
  drained (resultsChan after_minute_run) = true ∧
  workers after_minute_run = [WDone; WDone; WDone] ∧
  updater after_minute_run = Some UDone ∧ closer after_minute_run = Some CDone.
Proof.
  apply (returned_is_quiescent after_minute_run);
    [apply after_minute_run_reachable | reflexivity].
Defined.

Lemma live_exists ws : 0 < live ws → ∃ w p, ws !! w = Some p ∧ p ≠ WDone.
Proof.
  induction ws as [|q ws IH]; simpl; [lia|]. intros H.
  destruct q.
  - by exists 0, WRange.
  - by exists 0, (WSend result).
  - destruct (IH H) as (w & p & ? & ?). by exists (S w), p.
Qed.

Lemma held_app_length ws : length (held (ws ++ [WRange])) = length (held ws).
Proof. by rewrite held_app. Qed.

(** As long as the orchestrator has not returned some goroutine can take a
    step that brings the return nearer. *)
Lemma some_step_helps s :
  Core s → Bounds s → orch s ≠ OReturned →
  ∃ l s', exec l s = Some s' ∧ left s' < left s.
Proof.
  intros HC HB Hnr.
  destruct HC as [C1 C2 C3 C4 C5 C6 C7 C8 C9 C10].
  destruct HB as [B1 B2 B3 B4 B5].
  unfold exec. rewrite C1. unfold left.
  destruct (orch s) as [i| | | |[|def todo]| |] eqn:Ho; simpl in *; [..|done].
  - (* starting a worker *)
    exists LOrch. unfold orch_step. rewrite Ho. eexists. split; [done|]. simpl.
    rewrite held_app, live_app. destruct C3 as (Hi & _).
    destruct (S i <? numProcessorWorkers) eqn:E; simpl; lia.
  - exists LOrch. unfold orch_step. rewrite Ho. eexists. split; [done|]. simpl.
    destruct C3 as (_ & -> & _). simpl. lia.
  - exists LOrch. unfold orch_step. rewrite Ho. eexists. split; [done|]. simpl.
    destruct C3 as (_ & _ & ->). simpl. lia.
  - (* at the select *)
    destruct (stopChan s) eqn:Hst.
    + exists LStop. unfold stop_step, close. rewrite Ho, Hst, C5.
      eexists. split; [done|]. simpl. lia.
    + exists LCloseStopChan. unfold close_stop_step. rewrite Hst.
      eexists. split; [done|]. simpl. rewrite Ho. simpl. lia.
  - exists LOrch. unfold orch_step. rewrite Ho. eexists. split; [done|]. simpl. lia.
  - exists LOrch. unfold orch_step, try_enqueue, try_send. rewrite Ho, C5.
    destruct (full (defsToProcessChan s)); eexists; (split; [done|]); simpl;
      rewrite ?length_app; simpl; lia.
  - (* winding down *)
    destruct C3 as (Hlen & [u Hu] & [c Hc]). rewrite Hu in *.
    destruct u.
    2:{ exists LOrch. unfold orch_step. rewrite Ho, C4.
        eexists. split; [done|]. simpl. rewrite ?Ho, ?Hu. simpl. lia. }
    destruct (buf (resultsChan s)) as [|r q] eqn:Hbuf.
    2:{ exists LUpdater. unfold updater_step, pop. rewrite Hu, Hbuf.
        eexists. split; [done|]. simpl. rewrite ?Ho, ?Hu, ?Hbuf. simpl. lia. }
    destruct (closed (resultsChan s)) eqn:Hcl.
    { exists LUpdater. unfold updater_step, pop. rewrite Hu, Hbuf, Hcl, C4. simpl.
      eexists. split; [done|]. simpl. rewrite ?Ho, ?Hu, ?Hbuf. simpl. lia. }
    rewrite Hc in *. destruct c.
    3:{ destruct C6 as [_ C6]. by specialize (C6 eq_refl). }
    2:{ exists LCloser. unfold closer_step, close. rewrite Hc, Hcl.
        eexists. split; [done|]. simpl. rewrite ?Ho, ?Hu, ?Hc, ?Hbuf. simpl. lia. }
    destruct (processorsWg s) as [|n] eqn:Hwg.
    { exists LCloser. unfold closer_step. rewrite Hc, Hwg.
      eexists. split; [done|]. simpl. rewrite ?Ho, ?Hu, ?Hc, ?Hbuf. simpl. lia. }
    destruct (live_exists (workers s)) as (w & p & Hw & Hp); [lia|].
    exists (LWorker w). unfold worker_step. rewrite Hw. destruct p; [| |done].
    + unfold pop. destruct (buf (defsToProcessChan s)) as [|d q'] eqn:Hd.
      * rewrite C5, Hwg. simpl. eexists. split; [done|]. simpl.
        rewrite (held_insert_done _ _ Hw).
        pose proof (live_insert_done _ _ _ Hw Hp).
        rewrite ?Ho, ?Hu, ?Hc, ?Hbuf, ?Hd. simpl. lia.
      * eexists. split; [done|]. simpl.
        rewrite (Permutation_length (held_insert_send _ _ _ Hw)).
        rewrite (live_insert_same _ _ _ (WSend (process w d)) Hw) by done.
        rewrite ?Ho, ?Hu, ?Hc, ?Hbuf, ?Hd. simpl. lia.
    + unfold full. rewrite Hcl, B2, Hbuf. simpl.
      eexists. split; [done|]. simpl.
      pose proof (Permutation_length (held_insert_range _ _ _ Hw)) as Hh.
      simpl in Hh. rewrite (live_insert_same _ _ _ WRange Hw) by done.
      rewrite ?Ho, ?Hu, ?Hc, ?Hbuf. simpl. lia.
Qed.

Lemma can_finish_within n s :
  left s < n → reachable s →
  ∃ ls s', run ls s = Some s' ∧ orch s' = OReturned.
Proof.
  revert s. induction n as [|n IH]; intros s Hn Hs; [lia|].
  assert (orch s = OReturned ∨ orch s ≠ OReturned) as [Hr|Hr]
    by (destruct (orch s); auto).
  - by exists [], s.
  - destruct (some_step_helps s) as (l & s1 & He & Hlt);
      auto using reachable_Core, reachable_Bounds.
    destruct (IH s1) as (ls & s' & Hrun & Hret); [lia|by eapply reach_step|].
    exists (l :: ls), s'. split; [|done]. simpl. by rewrite He.
Qed.

(** X15. From every state the program reaches there is a continuation in
    which the orchestrator returns without a panic: the shutdown protocol
    cannot get stuck. *)
Theorem shutdown_can_always_finish s :
  reachable s →
  ∃ ls s', run ls s = Some s' ∧ orch s' = OReturned ∧ crashed s' = false.
Proof.
  intros Hs. destruct (can_finish_within (S (left s)) s) as (ls & s' & Hrun & Hr);
    [lia|done|].
  exists ls, s'. split; [done|]. split; [done|].
  apply reachable_Core. by eapply run_reachable.
Qed.

Lemma shutdown_can_always_finish_witness :
  ∃ ls s', run ls mid_fetch = Some s' ∧ orch s' = OReturned ∧ crashed s' = false.
Proof. apply (shutdown_can_always_finish mid_fetch), mid_fetch_reachable. Defined.

Lemma sealed_nil P c : sealed P c [].
Proof. intros [|] ? ?; done. Qed.

Lemma sealed_cons P c e es :
  sealed P c es → (P e → c ∉ es) → sealed P c (e :: es).
Proof.
  intros Hs He [|x l1] l2; simpl; intros [= -> ->] e' He'.
  - by apply elem_of_nil in He'.
  - apply elem_of_cons in He' as [->|He'].
    + intros HP. apply (He HP). apply elem_of_app. right. left.
    + by eapply Hs.
Qed.

Lemma sealed_last_of P c es : sealed P c es → last_of P c (reverse es).
Proof.
  intros Hs h1 h2 H e He. apply reverse_split in H.
  eapply Hs; [done|]. by rewrite elem_of_reverse.
Qed.

Lemma Closing_start : Closing start.
Proof. split; simpl; auto using sealed_nil; by intros ?%elem_of_nil. Qed.

Lemma Closing_step l s s' : Core s → Closing s → exec l s = Some s' → Closing s'.
Proof.
  intros HC HL H. pose proof (Core_step _ _ _ HC H) as HC'.
  step_cases H; chan_facts; simplify_eq.
  all: try (destruct HC'; done).
  all: clear HC'.
  all: destruct HC as [C1 C2 C3 C4 C5 C6 C7 C8 C9 C10];
       destruct HL as [L1 L2 L3 L4]; use_pcs.
  all: split; simpl in *.
  all: try done.
  all: try (intros [[=]|?]%elem_of_cons; eauto; congruence).
  all: try (intros _; congruence).
  all: try (apply sealed_cons; [done|]; simpl; try done; intros _ Hin;
            first [apply L1 in Hin | apply L2 in Hin]; congruence).
Qed.

Lemma reachable_Closing s : reachable s → Closing s.
Proof.
  induction 1; eauto using Closing_start, Closing_step, reachable_Core.
Qed.

(** X17. After close(defsToProcessChan) there is no tick, no enqueue
    attempt and no second close; after close(resultsChan) no worker sends
    and there is no second close. *)
Theorem queues_unused_after_close s :
  reachable s →
  last_of on_defs ECloseDefs (history s) ∧
  last_of on_results ECloseResults (history s).
Proof.
  intros Hs. destruct (reachable_Closing _ Hs) as [_ _ L3 L4].
  split; by apply sealed_last_of.
Qed.

Lemma queues_unused_after_close_witness :
  last_of on_defs ECloseDefs (history after_minute_run) ∧
  last_of on_results ECloseResults (history after_minute_run).
Proof. apply (queues_unused_after_close after_minute_run), after_minute_run_reachable. Defined.

Lemma made_from_cons e es r : made_from es r → made_from (e :: es) r.
Proof. intros (w & def & ? & ?). exists w, def. split; [by right|done]. Qed.

Lemma in_hand_app (ws : list worker_pc) (w : nat) :
  in_hand w (ws ++ [WRange]) = in_hand w ws.
Proof.
  unfold in_hand. destruct (decide (w < length ws)) as [Hlt|Hge].
  - by rewrite lookup_app_l.
  - rewrite (lookup_ge_None_2 ws w) by lia.
    rewrite lookup_app_r by lia. by destruct (w - length ws) as [|[|]].
Qed.

Lemma in_hand_insert_ne (ws : list worker_pc) (w w0 : nat) p :
  w0 ≠ w → in_hand w (<[w0:=p]> ws) = in_hand w ws.
Proof. intros. unfold in_hand. by rewrite list_lookup_insert_ne. Qed.

Lemma in_hand_insert_eq (ws : list worker_pc) (w : nat) p q :
  ws !! w = Some q →
  in_hand w (<[w:=p]> ws) = match p with WSend r => [DefinitionID r] | _ => [] end.
Proof.
  intros Hq. unfold in_hand.
  by rewrite list_lookup_insert_eq by by eapply lookup_lt_Some.
Qed.

Lemma Handled_start : Handled start.
Proof.
  split; simpl; try done.
  - by intros ? ?%elem_of_nil.
  - by intros ? ?%elem_of_nil.
  - by intros ? ? ?%elem_of_nil.
Qed.

Lemma Handled_step l s s' : Handled s → exec l s = Some s' → Handled s'.
Proof.
  intros [D1 D2 D3 D4 D5] H.
  step_cases H; chan_facts; simplify_eq.
  all: split; simpl in *; rewrite ?length_app, ?length_insert; simpl.
  all: try done.
  all: try (intros; apply made_from_cons; eauto; fail).
  all: try (intros w' def' [[=]|?]%elem_of_cons; eauto; fail).
  all: try (intros w'; rewrite in_hand_app; apply D1).
  all: try (intros w' def' Hin; apply D5 in Hin; lia).
  all: try (intros w' r' [?|[? Hx]]%lookup_app_Some;
            [eauto | destruct (w' - _); simplify_eq]; fail).
  all: try (intros r' [[=]|?]%elem_of_cons; apply made_from_cons; eauto; fail).
  all: try (intros r' [[= ->]|?]%elem_of_cons; apply made_from_cons; [|by eauto];
            apply D2; match goal with E : buf _ = _ :: _ |- _ => rewrite E end;
            by left).
  all: try (intros w' r' [(-> & [= <-] & _)|(_ & Hx)]%list_lookup_insert_Some;
            [exists w', d; split; [by left|done] | apply made_from_cons; eauto]; fail).
  all: try (intros w' r' [(_ & [=] & _)|(_ & Hx)]%list_lookup_insert_Some;
            apply made_from_cons; eauto; fail).
  all: try (intros w' def' [[= -> ->]|?]%elem_of_cons;
            [by eapply lookup_lt_Some | eauto]; fail).
  all: try (intros r' [?|Hx]%elem_of_app;
            [|apply list_elem_of_singleton in Hx as ->];
            apply made_from_cons; eauto; fail).
  all: try (intros r' Hr'; apply made_from_cons, D2;
            match goal with
            | E : buf _ = _ :: buf _ |- _ => rewrite E; by right
            | E : buf _ = buf _ |- _ => by rewrite <- E
            end).
  all: try (intros w'; destruct (decide (w = w')) as [<-|Hne]; simpl;
            [erewrite in_hand_insert_eq by done; simpl; rewrite D1;
             unfold in_hand;
             match goal with E : workers _ !! _ = Some _ |- _ => by rewrite E end
            | rewrite in_hand_insert_ne by done; apply D1]).
Qed.

Lemma reachable_Handled s : reachable s → Handled s.
Proof. induction 1; eauto using Handled_start, Handled_step. Qed.

Lemma omap_reverse_eq {A B} (f : A → option B) (l : list A) :
  omap f (reverse l) = reverse (omap f l).
Proof.
  induction l as [|x l IH]; [done|].
  rewrite reverse_cons, omap_app, IH. simpl.
  destruct (f x); simpl; [by rewrite reverse_cons | by rewrite app_nil_r].
Qed.

(** X11. The identifiers of the results a worker has sent are, in order,
    those of the items it received, except for the item it holds while it
    is at its send: a worker handles its items in the order it received
    them, one at a time. *)
Theorem worker_keeps_order s w :
  reachable s →
  received_by w (history s) = sent_by w (history s) ++ in_hand w (workers s) ∧
  length (in_hand w (workers s)) ≤ 1.
Proof.
  intros Hs. destruct (reachable_Handled _ Hs) as [D1 _ _ _ _].
  unfold history, received_by, sent_by. rewrite !omap_reverse_eq.
  fold (received_by w (events s)) (sent_by w (events s)).
  rewrite D1, reverse_app. unfold in_hand.
  destruct (workers s !! w) as [[]|]; simpl; auto.
Qed.

Lemma worker_keeps_order_witness :
  received_by 0 (history after_minute_run) =
    sent_by 0 (history after_minute_run) ++ in_hand 0 (workers after_minute_run) ∧
  length (in_hand 0 (workers after_minute_run)) ≤ 1.
Proof. apply (worker_keeps_order after_minute_run 0), after_minute_run_reachable. Defined.

(** X12. Every result the updater receives was built by one of the three
    workers from an item that worker received: it carries the item's
    identifier, three numbers and no error, so the updater never takes its
    error branch. *)
Theorem results_come_from_items s r :
  reachable s → EUpdaterRecv r ∈ history s →
  Error r = None ∧ length (Embedding r) = 3 ∧
  ∃ w def,
    w < numProcessorWorkers ∧ EWorkerRecv w def ∈ history s ∧
    r = process w def ∧ DefinitionID r = ID def.
Proof.
  intros Hs Hr. unfold history in *. rewrite elem_of_reverse in Hr.
  destruct (reachable_Handled _ Hs) as [_ _ _ D4 D5].
  destruct (D4 _ Hr) as (w & def & Hin & ->).
  split; [done|]. split; [done|]. exists w, def.
  split; [|by rewrite elem_of_reverse].
  specialize (D5 _ _ Hin).
  pose proof (core_phase _ (reachable_Core _ Hs)) as Hp.
  unfold numProcessorWorkers. destruct (orch s); destruct_and?; lia.
Qed.

Lemma results_come_from_items_witness :
  Error (process 0 {| ID := 701; Text := "Definition fetched at 3:04PM" |}) = None ∧
  length (Embedding (process 0 {| ID := 701; Text := "Definition fetched at 3:04PM" |})) = 3 ∧
  ∃ w def,
    w < numProcessorWorkers ∧ EWorkerRecv w def ∈ history after_minute_run ∧
    process 0 {| ID := 701; Text := "Definition fetched at 3:04PM" |} = process w def ∧
    DefinitionID (process 0 {| ID := 701; Text := "Definition fetched at 3:04PM" |}) = ID def.
Proof.
  apply (results_come_from_items after_minute_run);
    [apply after_minute_run_reachable|].
  vm_compute. repeat (apply elem_of_cons; first [by left | right]).
Defined.

(** X13. fetchAndSendDefinitions run without interruption panics on a
    closed channel; on an open one it returns nothing, appends as many of
    its two definitions as there are free slots, in order, and logs the
    sent ones and then the skipped ones. *)
Theorem fetchAndSendDefinitions_spec dbPool sec1 sec2 kitchen c :
  fetchAndSendDefinitions dbPool sec1 sec2 kitchen c =
    if closed c then None
    else
      let free := cap c - length (buf c) in
      let defs := dummyDefinitions sec1 sec2 kitchen in
      Some ([],
            (Make (buf c ++ take free defs) (cap c) false,
             map (fun d => EFetchSent (ID d)) (take free defs) ++
             map (fun d => EFetchSkipped (ID d)) (drop free defs))).
Proof.
  destruct c as [q n cl]. simpl.
  unfold fetchAndSendDefinitions, try_enqueue, try_send, full, push. simpl.
  destruct cl; [done|].
  destruct (n <=? length q) eqn:E1; simpl.
  - rewrite E1. apply Nat.leb_le in E1. replace (n - length q) with 0 by lia.
    simpl. by rewrite app_nil_r.
  - apply Nat.leb_gt in E1. rewrite length_app. simpl.
    destruct (n <=? length q + 1) eqn:E2; simpl.
    + apply Nat.leb_le in E2. replace (n - length q) with 1 by lia. done.
    + apply Nat.leb_gt in E2.
      destruct (n - length q) as [|[|k]] eqn:E3; try lia.
      simpl. rewrite take_nil, drop_nil, <- app_assoc. done.
Qed.

(** X14. Whatever the two clock readings, the two definitions of one fetch
    have different identifiers, between 1 and 5902, and the identifiers
    depend on the seconds alone. *)
Theorem dummyDefinitions_ids sec1 sec2 kitchen :
  is_second sec1 = true → is_second sec2 = true →
  ∃ d1 d2,
    dummyDefinitions sec1 sec2 kitchen = [d1; d2] ∧
    ID d1 ≠ ID d2 ∧
    (1 ≤ ID d1 ≤ 5901)%Z ∧ (2 ≤ ID d2 ≤ 5902)%Z ∧
    (∀ kitchen', map ID (dummyDefinitions sec1 sec2 kitchen') = [ID d1; ID d2]).
Proof.
  unfold is_second. intros [H1 H2]%andb_prop [H3 H4]%andb_prop.
  apply Z.leb_le in H1, H3. apply Z.ltb_lt in H2, H4.
  do 2 eexists. split; [reflexivity|]. simpl.
  repeat split; try lia.
Qed.

Lemma dummyDefinitions_ids_witness :
  ∃ d1 d2,
    dummyDefinitions 59 0 "11:59PM" = [d1; d2] ∧
    ID d1 ≠ ID d2 ∧
    (1 ≤ ID d1 ≤ 5901)%Z ∧ (2 ≤ ID d2 ≤ 5902)%Z ∧
    (∀ kitchen', map ID (dummyDefinitions 59 0 kitchen') = [ID d1; ID d2]).
Proof. apply (dummyDefinitions_ids 59 0 "11:59PM"); reflexivity. Defined.

(** X18. At every moment the identifiers enqueued so far are, counted with
    repetitions, those the updater has received, those in resultsChan,
    those held by workers at their send and those still in
    defsToProcessChan. *)
Theorem items_accounted_for s :
  reachable s →
  enqueued_ids (history s) ≡ₚ
    sunk_ids (history s) ++ map DefinitionID (buf (resultsChan s))
      ++ held (workers s) ++ map ID (buf (defsToProcessChan s)).
Proof.
  intros Hs. destruct (reachable_Cons _ Hs) as [K1 K2 K3].
  unfold history, enqueued_ids, sunk_ids. rewrite !omap_reverse.
  fold (enqueued_ids (events s)) (sunk_ids (events s)).
  rewrite K1, K2, K3. by rewrite <- !app_assoc.
Qed.

Lemma items_accounted_for_witness :
  enqueued_ids (history mid_fetch) ≡ₚ
    sunk_ids (history mid_fetch) ++ map DefinitionID (buf (resultsChan mid_fetch))
      ++ held (workers mid_fetch) ++ map ID (buf (defsToProcessChan mid_fetch)).
Proof. apply (items_accounted_for mid_fetch), mid_fetch_reachable. Defined.

End PipelineExtras.
